(** * ProductGrid.jsx: fetch orchestration of the character grid

    A shallow embedding of [src/Routes/components/ProductGrid.jsx].  The
    component keeps six [useState] cells, issues HTTP GETs through
    [axios.get], debounces the search box with [lodash.debounce] and resolves
    the cross references of a clicked card in [fetchCharacterDetails].

    The component runs on a single event loop.  Every [async] function of the
    source is cut at its [await]s: what runs between two [await]s is one
    atomic function on the [World], and the suspended rest of the function is
    a [Task] that records which requests it waits for.  The network and the
    user are the environment: they choose the next [Event]. *)

From Stdlib Require Import ZArith Lia SpecFloat.
From stdpp Require Import base option list strings pretty.

Local Open Scope Z_scope.

(** ** Values exchanged with the remote service *)

Definition URL := string.

(** What [axios.get] rejects with, and what [console.error] receives. *)
Definition Error := string.

(** The two ways a promise settles. *)
Inductive Outcome (A : Type) : Type :=
| Resolved (a : A)
| Rejected (e : Error).
Arguments Resolved {A} a.
Arguments Rejected {A} e.

(** One element of [res.data.results].  The three cross references are read
    under a truthiness test in the source ([char.homeworld],
    [char.species && ...], [char.films && ...]): [None] is a property the
    payload does not carry. *)
Record Character := {
  name : string;
  birth_year : string;
  gender : string;
  homeworld : option URL;
  species : option (list URL);
  films : option (list URL)
}.

(** [res.data] of the list endpoint. *)
Record PageResult := {
  results : list Character;
  total : Z
}.

(** [hw.data], [sp.data] and [f.data]: the two properties the source reads. *)
Record Resource := {
  data_name : string;
  data_title : string
}.

(** The object built in [fetchCharacterDetails]: [{ ...char }] and the three
    properties assigned later; [None] is a property not assigned yet. *)
Record Details := {
  spread : Character;
  homeworld_name : option string;
  species_name : option string;
  film_titles : option (list string)
}.

(** JavaScript truthiness of a string. *)
Definition truthy (s : string) : bool := negb (String.eqb s "").

(** ** The list endpoint *)

Definition itemsPerPage : Z := 10.

Definition endpoint : string :=
  "https://star-wars-backend-hne5.onrender.com/characters?".

(** The template literal of line 20; [pretty] prints the page in decimal. *)
Definition charactersURL (query : string) (page : Z) : URL :=
  endpoint +:+ (if truthy query then "search=" +:+ query +:+ "&" else "")
           +:+ "page=" +:+ pretty page.

(** *** JavaScript numbers

    A Number is an IEEE 754 binary64 value: a [spec_float] with 53 bits of
    precision, whose operations round to nearest, ties to even. *)

Definition prec : Z := 53.
Definition emax : Z := 1024.

(** The Number an integer literal denotes: the double nearest to it, an
    infinity beyond the largest double.  This is what [JSON.parse] makes of
    the digits of [total] in the response body, and what the literal [10] of
    line 14 is. *)
Definition Number_of_Z (n : Z) : spec_float :=
  binary_normalize prec emax n 0 false.

(** [Math.ceil]: the least integer not below a double [m * 2 ^ e].  The
    state cells of the component hold integers, so the two infinities are
    kept as [2 ^ 1024] and its opposite, which no double reaches; [-0] is
    kept as [0].  An integer divided by ten is never NaN
    ([quotient_not_NaN] below), so that case is not met. *)
Definition Math_ceil (x : spec_float) : Z :=
  match x with
  | S754_zero _ => 0
  | S754_finite s m e =>
      let v := if s then Zneg m else Zpos m in
      if 0 <=? e then v * 2 ^ e else - ((- v) / 2 ^ (- e))
  | S754_infinity s => if s then - 2 ^ 1024 else 2 ^ 1024
  | S754_nan => 0
  end.

(** Line 23: [Math.ceil(res.data.total / itemsPerPage)], the division being
    the one of doubles. *)
Definition pageCount (n : Z) : Z :=
  Math_ceil (SFdiv prec emax (Number_of_Z n) (Number_of_Z itemsPerPage)).

(** ** Component state *)

Record UIState := {
  characters : list Character;
  search : string;
  currentPage : Z;
  selectedChar : option Details;
  totalPages : Z;
  loading : bool
}.

(** A suspended [fetchCharacterDetails], one constructor per [await]. *)
Inductive DetailsTask :=
| AwaitHomeworld (char : Character) (details : Details)   (* line 54 *)
| AwaitSpecies (char : Character) (details : Details)     (* line 59 *)
| AwaitFilms (details : Details) (settled : list (option Resource)).
                                                          (* line 66 *)

(** A suspended async function and the requests it waits for.  A request is
    named by its position in the log of issued GETs. *)
Inductive Task :=
| FetchCharacters (rid : nat)                             (* line 19 *)
| FetchCharacterDetails (rids : list nat) (t : DetailsTask).

Record World := {
  ui : UIState;
  (** the trailing call [lodash.debounce] holds: its argument and the
      milliseconds left on its timer *)
  debounced : option (string * nat);
  (** every URL handed to [axios.get], oldest first *)
  requests : list URL;
  tasks : list Task;
  (** the calls of [console.error], oldest first *)
  console : list (string * Error)
}.

(** *** The state setters *)

Definition with_ui (f : UIState -> UIState) (w : World) : World :=
  {| ui := f (ui w); debounced := debounced w; requests := requests w;
     tasks := tasks w; console := console w |}.

Definition setCharacters (v : list Character) : World -> World :=
  with_ui (fun s =>
    {| characters := v; search := search s; currentPage := currentPage s;
       selectedChar := selectedChar s; totalPages := totalPages s;
       loading := loading s |}).

Definition setSearch (v : string) : World -> World :=
  with_ui (fun s =>
    {| characters := characters s; search := v; currentPage := currentPage s;
       selectedChar := selectedChar s; totalPages := totalPages s;
       loading := loading s |}).

Definition setCurrentPage (v : Z) : World -> World :=
  with_ui (fun s =>
    {| characters := characters s; search := search s; currentPage := v;
       selectedChar := selectedChar s; totalPages := totalPages s;
       loading := loading s |}).

Definition setSelectedChar (v : option Details) : World -> World :=
  with_ui (fun s =>
    {| characters := characters s; search := search s;
       currentPage := currentPage s; selectedChar := v;
       totalPages := totalPages s; loading := loading s |}).

Definition setTotalPages (v : Z) : World -> World :=
  with_ui (fun s =>
    {| characters := characters s; search := search s;
       currentPage := currentPage s; selectedChar := selectedChar s;
       totalPages := v; loading := loading s |}).

Definition setLoading (v : bool) : World -> World :=
  with_ui (fun s =>
    {| characters := characters s; search := search s;
       currentPage := currentPage s; selectedChar := selectedChar s;
       totalPages := totalPages s; loading := v |}).

(** *** The environment's side of the world *)

Definition console_error (label : string) (error : Error) (w : World) : World :=
  {| ui := ui w; debounced := debounced w; requests := requests w;
     tasks := tasks w; console := console w ++ [(label, error)] |}.

Definition set_debounced (d : option (string * nat)) (w : World) : World :=
  {| ui := ui w; debounced := d; requests := requests w;
     tasks := tasks w; console := console w |}.

Definition set_tasks (ts : list Task) (w : World) : World :=
  {| ui := ui w; debounced := debounced w; requests := requests w;
     tasks := ts; console := console w |}.

Definition spawn (t : Task) (w : World) : World :=
  set_tasks (tasks w ++ [t]) w.

(** [urls.map((url) => axios.get(url))]: the GETs leave in list order; the
    result names the new requests. *)
Definition axios_get_all (urls : list URL) (w : World) : list nat * World :=
  (seq (length (requests w)) (length urls),
   {| ui := ui w; debounced := debounced w; requests := requests w ++ urls;
      tasks := tasks w; console := console w |}).

Definition axios_get (url : URL) (w : World) : nat * World :=
  (length (requests w), snd (axios_get_all [url] w)).

(** ** The List Fetch Controller: [fetchCharacters] (lines 16-31) *)

(** Lines 17-19, up to the [await]. *)
Definition fetchCharacters (query : string) (page : Z) (w : World) : World :=
  let w1 := setLoading true w in
  let '(rid, w2) := axios_get (charactersURL query page) w1 in
  spawn (FetchCharacters rid) w2.

(** Lines 22-30, from the [await] on: the [try] body when the GET resolved,
    the [catch] block when it rejected, and the [finally] block after
    either. *)
Definition fetchCharacters_settled (o : Outcome PageResult) (w : World) : World :=
  let w1 :=
    match o with
    | Resolved data =>
        setTotalPages (pageCount (total data))
          (setCharacters (results data) w)
    | Rejected error =>
        setTotalPages 1
          (setCharacters []
             (console_error "Error fetching characters:" error w))
    end in
  setLoading false w1.

(** ** The Search Debouncer (lines 33-47) *)

Definition wait : nat := 500.

(** Calling the function returned by [debounce(f, 500)]: the trailing call
    is replaced and its timer restarted. *)
Definition debouncedSearch (query : string) (w : World) : World :=
  set_debounced (Some (query, wait)) w.

(** The two [useEffect]s, run after a render in the order they are declared,
    each only when one of its dependencies differs from the previous render.
    [debouncedSearch] is memoised with an empty dependency list and never
    changes. *)
Definition useEffects (prev : UIState) (w : World) : World :=
  let w1 :=
    if decide (currentPage (ui w) = currentPage prev) then w
    else fetchCharacters "" (currentPage (ui w)) w in
  if decide (search (ui w1) = search prev) then w1
  else debouncedSearch (search (ui w1)) w1.

(** An event handler: its state updates, then the render they cause.  The
    updates of one handler, also of a timer callback, are batched into one
    render, as React does from version 18 on. *)
Definition handler (updates : World -> World) (w : World) : World :=
  useEffects (ui w) (updates w).

(** The function given to [debounce] (lines 34-37). *)
Definition search_callback (query : string) : World -> World :=
  handler (fun w => fetchCharacters query 1 (setCurrentPage 1 w)).

(** ** The Detail Enrichment Controller: [fetchCharacterDetails] (lines 49-76) *)

Definition set_homeworld_name (v : string) (d : Details) : Details :=
  {| spread := spread d; homeworld_name := Some v;
     species_name := species_name d; film_titles := film_titles d |}.

Definition set_species_name (v : string) (d : Details) : Details :=
  {| spread := spread d; homeworld_name := homeworld_name d;
     species_name := Some v; film_titles := film_titles d |}.

Definition set_film_titles (v : list string) (d : Details) : Details :=
  {| spread := spread d; homeworld_name := homeworld_name d;
     species_name := species_name d; film_titles := Some v |}.

(** How far a call got when it next gives up the event loop. *)
Inductive Progress :=
| Await (gets : list URL) (t : DetailsTask)  (* new GETs issued, then await *)
| Waiting (t : DetailsTask)                  (* [Promise.all] still pending *)
| Committed (details : Details)              (* line 72 was reached *)
| Caught (error : Error).                    (* line 74 was reached *)

(** Lines 65-72. *)
Definition films_step (char : Character) (details : Details) : Progress :=
  match films char with
  | Some (url :: urls) =>
      Await (url :: urls)
            (AwaitFilms details (replicate (length (url :: urls)) None))
  | _ => Committed (set_film_titles [] details)
  end.

(** Lines 58-63, then on. *)
Definition species_step (char : Character) (details : Details) : Progress :=
  match species char with
  | Some (url :: _) => Await [url] (AwaitSpecies char details)
  | _ => films_step char (set_species_name "Unknown" details)
  end.

(** Lines 51-56, then on. *)
Definition fetchCharacterDetails (char : Character) : Progress :=
  let details :=
    {| spread := char; homeworld_name := None;
       species_name := None; film_titles := None |} in
  match homeworld char with
  | Some url =>
      if truthy url then Await [url] (AwaitHomeworld char details)
      else species_step char details
  | None => species_step char details
  end.

(** The [i]-th request a task waits for settles.  [None]: the task does not
    wait for such a request.  [Promise.all] keeps one slot per promise,
    rejects with the first rejection it sees and resolves, with the values
    in slot order, once every slot is filled. *)
Definition resume (t : DetailsTask) (i : nat) (o : Outcome Resource)
  : option Progress :=
  match t, i with
  | AwaitHomeworld char details, O =>
      Some match o with
           | Resolved hw =>
               species_step char (set_homeworld_name (data_name hw) details)
           | Rejected error => Caught error
           end
  | AwaitSpecies char details, O =>
      Some match o with
           | Resolved sp =>
               films_step char (set_species_name (data_name sp) details)
           | Rejected error => Caught error
           end
  | AwaitFilms details settled, _ =>
      match settled !! i with
      | Some None =>
          Some match o with
               | Resolved f =>
                   let settled' := <[i := Some f]> settled in
                   match mapM id settled' with
                   | Some fs =>
                       Committed (set_film_titles (map data_title fs) details)
                   | None => Waiting (AwaitFilms details settled')
                   end
               | Rejected error => Caught error
               end
      | _ => None
      end
  | _, _ => None
  end.

(** What the component does with the progress of a call whose requests were
    [rids]. *)
Definition proceed (rids : list nat) (p : Progress) (w : World) : World :=
  match p with
  | Await gets t =>
      let '(rids', w') := axios_get_all gets w in
      spawn (FetchCharacterDetails rids' t) w'
  | Waiting t => spawn (FetchCharacterDetails rids t) w
  | Committed details => setSelectedChar (Some details) w
  | Caught error => console_error "Error fetching character details:" error w
  end.

(** ** Events *)

Inductive Event :=
| Change (value : string)        (* line 87: the search box *)
| ClearSearch                    (* line 92 *)
| Elapse (ms : nat)              (* time passes with no other event *)
| PrevPage                       (* line 141 *)
| GotoPage (i : nat)             (* line 150: the button labelled i + 1 *)
| NextPage                       (* line 157 *)
| ClickCard (index : nat)        (* line 122 *)
| CloseModal                     (* line 170 *)
| CharactersResponse (rid : nat) (o : Outcome PageResult)
| ResourceResponse (rid : nat) (o : Outcome Resource).

(** Line 137: the pagination bar is rendered. *)
Definition pagination_shown (s : UIState) : bool :=
  negb (loading s) && (0 <? length (characters s))%nat.

Definition waits_for (rid : nat) (t : Task) : bool :=
  match t with
  | FetchCharacters r => (r =? rid)%nat
  | FetchCharacterDetails rids _ => bool_decide (rid ∈ rids)
  end.

(** The task waiting for a request, and the other tasks. *)
Fixpoint take_task (rid : nat) (ts : list Task) : option (Task * list Task) :=
  match ts with
  | [] => None
  | t :: ts' =>
      if waits_for rid t then Some (t, ts')
      else match take_task rid ts' with
           | Some (t', rest) => Some (t', t :: rest)
           | None => None
           end
  end.

(** Position of a request among those a task waits for. *)
Definition slot_of (rid : nat) (rids : list nat) : option nat :=
  fst <$> list_find (eq rid) rids.

(** One turn of the event loop.  [None]: the event cannot happen in this
    state (the control is not rendered, nothing waits for the response). *)
Definition step (w : World) (ev : Event) : option World :=
  match ev with
  | Change value => Some (handler (setSearch value) w)
  | ClearSearch =>
      if truthy (search (ui w)) then Some (handler (setSearch "") w) else None
  | Elapse ms =>
      match debounced w with
      | Some (query, remaining) =>
          if (remaining <=? ms)%nat
          then Some (search_callback query (set_debounced None w))
          else Some (set_debounced (Some (query, (remaining - ms)%nat)) w)
      | None => Some w
      end
  | PrevPage =>
      if pagination_shown (ui w)
      then Some (handler
                   (fun w => setCurrentPage (Z.max (currentPage (ui w) - 1) 1) w)
                   w)
      else None
  | GotoPage i =>
      if pagination_shown (ui w) && (Z.of_nat i <? totalPages (ui w))
      then Some (handler (setCurrentPage (Z.of_nat i + 1)) w)
      else None
  | NextPage =>
      if pagination_shown (ui w)
      then Some (handler
                   (fun w => setCurrentPage
                               (Z.min (currentPage (ui w) + 1) (totalPages (ui w)))
                               w)
                   w)
      else None
  | ClickCard index =>
      if loading (ui w) then None
      else match characters (ui w) !! index with
           | Some char => Some (proceed [] (fetchCharacterDetails char) w)
           | None => None
           end
  | CloseModal =>
      match selectedChar (ui w) with
      | Some _ => Some (setSelectedChar None w)
      | None => None
      end
  | CharactersResponse rid o =>
      match take_task rid (tasks w) with
      | Some (FetchCharacters _, rest) =>
          Some (fetchCharacters_settled o (set_tasks rest w))
      | _ => None
      end
  | ResourceResponse rid o =>
      match take_task rid (tasks w) with
      | Some (FetchCharacterDetails rids t, rest) =>
          i ← slot_of rid rids;
          p ← resume t i o;
          Some (proceed rids p (set_tasks rest w))
      | _ => None
      end
  end.

Fixpoint run (w : World) (evs : list Event) : option World :=
  match evs with
  | [] => Some w
  | ev :: evs' =>
      match step w ev with
      | Some w' => run w' evs'
      | None => None
      end
  end.

(** The component before its first render (lines 8-13) and after it: both
    effects have run once. *)
Definition unmounted : World :=
  {| ui := {| characters := []; search := ""; currentPage := 1;
              selectedChar := None; totalPages := 1; loading := false |};
     debounced := None; requests := []; tasks := []; console := [] |}.

Definition mounted : World :=
  debouncedSearch "" (fetchCharacters "" 1 unmounted).

(** States the component can be in. *)
Definition reachable (w : World) : Prop :=
  exists evs, run mounted evs = Some w.

(** ** The Presentation Layer (lines 78-184)

    The JSX tree as data: what is rendered, with the text it shows. *)

(** [Array.prototype.join] on strings. *)
Fixpoint join (sep : string) (l : list string) : string :=
  match l with
  | [] => ""
  | s :: rest =>
      match rest with
      | [] => s
      | _ => s +:+ sep +:+ join sep rest
      end
  end.

(** Line 179: [film_titles.join(", ") || "None"]. *)
Definition movies_text (titles : list string) : string :=
  let joined := join ", " titles in
  if truthy joined then joined else "None".

(** Line 125: the number in the circle of a card. *)
Definition cardNumber (page : Z) (index : nat) : Z :=
  Z.of_nat index + 1 + (page - 1) * itemsPerPage.

(** One card of the grid (lines 119-132). *)
Record Card := {
  card_number : Z;
  card_name : string;
  card_birth_year : string;
  card_gender : string;
  card_onClick : Character
}.

(** One numbered button of the pagination bar (lines 146-153). *)
Record PageButton := {
  button_label : Z;
  button_active : bool
}.

(** The modal (lines 166-181); an [undefined] property renders as no text. *)
Record Modal := {
  modal_name : string;
  modal_birth_year : string;
  modal_gender : string;
  modal_homeworld : string;
  modal_species : string;
  modal_movies : string
}.

Record View := {
  input_value : string;             (* line 86 *)
  clear_button : bool;              (* line 89 *)
  loader : bool;                    (* line 100 *)
  no_items : bool;                  (* line 109 *)
  cards : list Card;                (* lines 117-133 *)
  pagination : option (list PageButton);   (* lines 137-162 *)
  modal : option Modal              (* lines 165-182 *)
}.

(** [Array.from({ length: len }, f)]: [f] at the indices below [len], none
    when [len] is negative.  [None]: an array cannot have 2^32 elements or
    more, [Array.from] throws a RangeError. *)
Definition Array_from {A : Type} (len : Z) (f : nat -> A) : option (list A) :=
  if 2 ^ 32 <=? len then None else Some (f <$> seq 0 (Z.to_nat len)).

(** Lines 146-153: the button made for index [i]. *)
Definition page_button (s : UIState) (i : nat) : PageButton :=
  {| button_label := Z.of_nat i + 1;
     button_active := currentPage s =? Z.of_nat i + 1 |}.

(** Lines 145-154: [Array.from({ length: totalPages }, ...)]. *)
Definition numbered_buttons (s : UIState) : option (list PageButton) :=
  Array_from (totalPages s) (page_button s).

(** The numbered buttons of a pagination bar that rendered. *)
Definition page_buttons (s : UIState) : list PageButton :=
  default [] (numbered_buttons s).

(** Lines 118-133. *)
Definition grid (s : UIState) : list Card :=
  if loading s then []
  else imap (fun index char =>
               {| card_number := cardNumber (currentPage s) index;
                  card_name := name char;
                  card_birth_year := birth_year char;
                  card_gender := gender char;
                  card_onClick := char |})
            (characters s).

(** Lines 165-182.  [None]: reading [film_titles.join] of a record without
    [film_titles] throws. *)
Definition render_modal (d : Details) : option Modal :=
  titles ← film_titles d;
  Some {| modal_name := name (spread d);
          modal_birth_year := birth_year (spread d);
          modal_gender := gender (spread d);
          modal_homeworld := default "" (homeworld_name d);
          modal_species := default "" (species_name d);
          modal_movies := movies_text titles |}.

(** The component function's return value (lines 78-184).  [None]: the
    render throws, in the pagination bar (line 145) or in the modal
    (line 179).  React then takes the component off the page; [step] does
    not ask for a render, so it allows every event a rendered page would. *)
Definition render (s : UIState) : option View :=
  bar ← (if pagination_shown s then Some <$> numbered_buttons s
         else Some None);
  shown ← match selectedChar s with
          | Some d => Some <$> render_modal d
          | None => Some None
          end;
  Some {| input_value := search s;
          clear_button := truthy (search s);
          loader := loading s;
          no_items := negb (loading s) && (length (characters s) =? 0)%nat;
          cards := grid s;
          pagination := bar;
          modal := shown |}.

(** ** Vocabulary of the properties *)

(** The URL of a list request starts with the [search] parameter. *)
Definition has_search_param (url : URL) : bool :=
  String.prefix (endpoint +:+ "search=") url.

(** The URL of a list request ends with the [page] parameter for [page]. *)
Definition has_page_param (page : Z) (url : URL) : Prop :=
  exists front, url = front +:+ "page=" +:+ pretty page.

(** The page invariant of the specification. *)
Definition page_in_range (s : UIState) : Prop :=
  1 <= currentPage s <= totalPages s /\ 1 <= totalPages s.

(** The three pagination controls. *)
Definition is_navigation (ev : Event) : Prop :=
  ev = PrevPage \/ ev = NextPage \/ exists i, ev = GotoPage i.

(** *** Typing into the search box *)

(** Keystrokes, each followed by a pause in milliseconds. *)
Fixpoint keystrokes (keys : list (string * nat)) : list Event :=
  match keys with
  | [] => []
  | (value, ms) :: keys' => Change value :: Elapse ms :: keystrokes keys'
  end.

(** Every keystroke changes the text and comes less than [wait] ms after
    the one before. *)
Fixpoint burst (prev : string) (keys : list (string * nat)) : Prop :=
  match keys with
  | [] => True
  | (value, ms) :: keys' => value <> prev /\ (ms < wait)%nat /\ burst value keys'
  end.

(** The text in the box after the keystrokes. *)
Definition typed (prev : string) (keys : list (string * nat)) : string :=
  default prev (fst <$> last keys).


(** The requests a suspended call waits for. *)
Definition rids_of (t : Task) : list nat :=
  match t with
  | FetchCharacters rid => [rid]
  | FetchCharacterDetails rids _ => rids
  end.

Definition wf (w : World) : Prop :=
  NoDup (tasks w ≫= rids_of)
  /\ Forall (fun rid => (rid < length (requests w))%nat) (tasks w ≫= rids_of).

(** ** One enrichment against a network

    What the GET of each URL settles with, and the order in which the
    pending requests of the call settle: each arrival names a request by its
    position among the GETs of the current [await]. *)

Definition Network := URL -> Outcome Resource.

Fixpoint drive (net : Network) (log gets : list URL) (t : DetailsTask)
    (arrivals : list nat) : list URL * Progress :=
  match arrivals with
  | [] => (log, Waiting t)
  | i :: rest =>
      match gets !! i ≫= (fun url => resume t i (net url)) with
      | Some (Await gets' t') => drive net (log ++ gets') gets' t' rest
      | Some (Waiting t') => drive net log gets t' rest
      | Some p => (log, p)
      | None => drive net log gets t rest
      end
  end.

(** Carrying on from the progress of a call whose earlier GETs are [log]. *)
Definition continue (net : Network) (log : list URL) (p : Progress)
    (arrivals : list nat) : list URL * Progress :=
  match p with
  | Await gets t => drive net (log ++ gets) gets t arrivals
  | _ => (log, p)
  end.

(** The GETs issued by one click on a card, and how far the call got. *)
Definition enrich (net : Network) (arrivals : list nat) (char : Character)
  : list URL * Progress :=
  continue net [] (fetchCharacterDetails char) arrivals.

(** The call is over: it committed or it was aborted. *)
Definition finished (p : Progress) : Prop :=
  match p with
  | Committed _ | Caught _ => True
  | _ => False
  end.

(** The [i]-th request of the current [await] has not settled yet. *)
Definition pending (t : DetailsTask) (i : nat) : Prop :=
  match t with
  | AwaitFilms _ slots => slots !! i = Some None
  | _ => i = 0%nat
  end.

(** *** The detail record as the specification words it *)

Definition fetched (net : Network) (url : URL) : Prop :=
  exists r, net url = Resolved r.

Definition name_at (net : Network) (url : URL) : string :=
  match net url with Resolved r => data_name r | Rejected _ => "" end.

Definition title_at (net : Network) (url : URL) : string :=
  match net url with Resolved r => data_title r | Rejected _ => "" end.

(** The homeworld URL, if present. *)
Definition homeworld_gets (char : Character) : list URL :=
  match homeworld char with
  | Some url => if truthy url then [url] else []
  | None => []
  end.

(** Only the first species URL. *)
Definition species_gets (char : Character) : list URL :=
  match species char with
  | Some (url :: _) => [url]
  | _ => []
  end.

(** All film URLs. *)
Definition films_gets (char : Character) : list URL :=
  match films char with
  | Some urls => urls
  | None => []
  end.

Definition sub_fetches (char : Character) : list URL :=
  homeworld_gets char ++ species_gets char ++ films_gets char.

Definition spec_details (net : Network) (char : Character) : Details :=
  {| spread := char;
     homeworld_name := name_at net <$> head (homeworld_gets char);
     species_name :=
       Some (default "Unknown" (name_at net <$> head (species_gets char)));
     film_titles := Some (title_at net <$> films_gets char) |}.

(** A schedule that lets the homeworld and the species request settle and
    then the film requests in the given order. *)
Definition schedule (char : Character) (order : list nat) : list nat :=
  (const 0%nat <$> homeworld_gets char)
    ++ (const 0%nat <$> species_gets char) ++ order.

(** *** What a suspended call has established

    [suspended net char log gets t]: the call for [char] issued [log] so far,
    waits at [t] for the requests [gets], and every value it holds came from
    the network. *)

Definition details_at (net : Network) (char : Character)
    (sp : option string) : Details :=
  {| spread := char;
     homeworld_name := homeworld_name (spec_details net char);
     species_name := sp;
     film_titles := None |}.

Inductive suspended (net : Network) (char : Character)
  : list URL -> list URL -> DetailsTask -> Prop :=
| suspended_homeworld url :
    homeworld_gets char = [url] ->
    suspended net char [url] [url]
      (AwaitHomeworld char
         {| spread := char; homeworld_name := None;
            species_name := None; film_titles := None |})
| suspended_species url :
    Forall (fetched net) (homeworld_gets char) ->
    species_gets char = [url] ->
    suspended net char (homeworld_gets char ++ [url]) [url]
      (AwaitSpecies char (details_at net char None))
| suspended_films slots :
    Forall (fetched net) (homeworld_gets char) ->
    Forall (fetched net) (species_gets char) ->
    films char = Some (films_gets char) ->
    Forall2 (fun url slot => forall f, slot = Some f -> net url = Resolved f)
            (films_gets char) slots ->
    suspended net char (sub_fetches char) (films_gets char)
      (AwaitFilms
         (details_at net char (species_name (spec_details net char)))
         slots).

(** What the progress of a call guarantees when its earlier GETs are
    [log]. *)
Definition progress_ok (net : Network) (char : Character) (log : list URL)
    (p : Progress) : Prop :=
  match p with
  | Await gets t => suspended net char (log ++ gets) gets t
  | Waiting t => exists gets, suspended net char log gets t
  | Committed d =>
      d = spec_details net char
      /\ log = sub_fetches char
      /\ Forall (fetched net) (sub_fetches char)
  | Caught e =>
      (exists url, url ∈ log /\ net url = Rejected e)
      /\ log `prefix_of` sub_fetches char
  end.

(** The GETs that leave at the click on a card, before the first [await]. *)
Definition first_gets (char : Character) : list URL :=
  match homeworld_gets char, species_gets char with
  | [], [] => films_gets char
  | [], gets => gets
  | gets, _ => gets
  end.

(** *** What keeps the modal renderable *)

(** The record given to [setSelectedChar] has the two properties the modal
    cannot do without. *)
Definition complete (d : Details) : Prop :=
  is_Some (species_name d) /\ is_Some (film_titles d).

(** A call waiting for its films has already set [species_name]. *)
Definition task_sound (t : Task) : Prop :=
  match t with
  | FetchCharacterDetails _ (AwaitFilms d _) => is_Some (species_name d)
  | _ => True
  end.

Definition progress_sound (p : Progress) : Prop :=
  match p with
  | Await _ t | Waiting t => task_sound (FetchCharacterDetails [] t)
  | Committed d => complete d
  | Caught _ => True
  end.

Definition renderable (w : World) : Prop :=
  (forall d, selectedChar (ui w) = Some d -> complete d)
  /\ Forall task_sound (tasks w).

(** The spinner is backed by a request. *)
Definition spinner_backed (w : World) : Prop :=
  loading (ui w) = true -> exists rid, FetchCharacters rid ∈ tasks w.

(** The component a quiet 500 ms after it was mounted: two list requests
    are in flight. *)
Definition mounted_twice : World :=
  search_callback "" (set_debounced None mounted).

(** ** Scenario data *)

Definition luke : Character :=
  {| name := "Luke Skywalker"; birth_year := "19BBY"; gender := "male";
     homeworld := Some "https://swapi.dev/api/planets/1/";
     species := Some [];
     films := Some ["https://swapi.dev/api/films/1/";
                    "https://swapi.dev/api/films/2/"] |}.

(** A page of the list endpoint showing [luke] out of [n] matches. *)
Definition page_of (n : Z) : PageResult :=
  {| results := [luke]; total := n |}.

Definition planet (s : string) : Resource :=
  {| data_name := s; data_title := "" |}.

Definition film (s : string) : Resource :=
  {| data_name := ""; data_title := s |}.

(** A second card, with a film the service does not know. *)
Definition leia : Character :=
  {| name := "Leia Organa"; birth_year := "19BBY"; gender := "female";
     homeworld := Some "https://swapi.dev/api/planets/2/";
     species := Some ["https://swapi.dev/api/species/1/"];
     films := Some ["https://swapi.dev/api/films/1/";
                    "https://swapi.dev/api/films/2/";
                    "https://swapi.dev/api/films/9/"] |}.

(** A third card, with two species. *)
Definition han : Character :=
  {| name := "Han Solo"; birth_year := "29BBY"; gender := "male";
     homeworld := Some "https://swapi.dev/api/planets/1/";
     species := Some ["https://swapi.dev/api/species/1/";
                      "https://swapi.dev/api/species/2/"];
     films := Some ["https://swapi.dev/api/films/1/"] |}.

(** A service that knows two planets, two species and two films. *)
Definition swapi : Network := fun url =>
  if String.eqb url "https://swapi.dev/api/planets/1/"
  then Resolved (planet "Tatooine")
  else if String.eqb url "https://swapi.dev/api/planets/2/"
  then Resolved (planet "Alderaan")
  else if String.eqb url "https://swapi.dev/api/species/1/"
  then Resolved (planet "Human")
  else if String.eqb url "https://swapi.dev/api/species/2/"
  then Resolved (planet "Droid")
  else if String.eqb url "https://swapi.dev/api/films/1/"
  then Resolved (film "A New Hope")
  else if String.eqb url "https://swapi.dev/api/films/2/"
  then Resolved (film "The Empire Strikes Back")
  else Rejected "Request failed with status code 404".

(** The component after its first list request resolved with 25 matches. *)
Definition first_page : World :=
  fetchCharacters_settled (Resolved (page_of 25)) (set_tasks [] mounted).

(** The component after its first list request resolved with 42949672960
    matches: 2^32 pages. *)
Definition too_many_pages : World :=
  fetchCharacters_settled (Resolved (page_of 42949672960))
    (set_tasks [] mounted).

(** The user searches for "Luke" while the first list request is still in
    flight, that request resolves with 25 characters, the user opens page 3,
    and then the search resolves with its single match. *)
Definition late_search : list Event :=
  [Change "Luke"; Elapse 500;
   CharactersResponse 0 (Resolved (page_of 25));
   GotoPage 2;
   CharactersResponse 1 (Resolved (page_of 1))].

(** The user searches for "a", the service reports 15 matches, and the user
    asks for the next page. *)
Definition paging_a_search : list Event :=
  [Change "a"; Elapse 500;
   CharactersResponse 0 (Resolved (page_of 25));
   CharactersResponse 1 (Resolved (page_of 15));
   NextPage].

(** The user opens page 3 of the unfiltered list and then types "Luke", one
    key every 100 ms. *)
Definition typing_on_page_3 : list Event :=
  [CharactersResponse 0 (Resolved (page_of 25)); Elapse 500;
   CharactersResponse 1 (Resolved (page_of 25));
   GotoPage 2;
   CharactersResponse 2 (Resolved (page_of 25));
   Change "L"; Elapse 100; Change "Lu"; Elapse 100; Change "Luk"; Elapse 100;
   Change "Luke"].

(** * Properties *)

(** ** Page arithmetic *)

(** *** Doubles

    What [SpecFloat] computes on the mantissas the page count meets. *)

(** [digits2_pos] counts the bits of a positive number. *)
Lemma digits2_bounds (p : positive) :
  2 ^ (Zpos (digits2_pos p) - 1) <= Zpos p < 2 ^ Zpos (digits2_pos p).
Proof.
  induction p as [p IH|p IH|]; simpl digits2_pos.
  - rewrite Pos2Z.inj_succ, Z.pow_succ_r by lia.
    replace (Z.succ (Zpos (digits2_pos p)) - 1)
      with (Z.succ (Zpos (digits2_pos p) - 1)) by lia.
    rewrite Z.pow_succ_r by lia. lia.
  - rewrite Pos2Z.inj_succ, Z.pow_succ_r by lia.
    replace (Z.succ (Zpos (digits2_pos p)) - 1)
      with (Z.succ (Zpos (digits2_pos p) - 1)) by lia.
    rewrite Z.pow_succ_r by lia. lia.
  - simpl. lia.
Qed.

Lemma digits2_unique (p : positive) (d : Z) :
  2 ^ (d - 1) <= Zpos p < 2 ^ d -> Zpos (digits2_pos p) = d.
Proof.
  intros [Hlo Hhi]. pose proof (digits2_bounds p) as [Hlo' Hhi'].
  assert (0 <= d).
  { destruct (Z.le_gt_cases 0 d); [assumption|]. rewrite Z.pow_neg_r in Hhi; lia. }
  destruct (Z.lt_trichotomy (Zpos (digits2_pos p)) d) as [Hlt|[Heq|Hgt]];
    [|exact Heq|].
  - assert (2 ^ Zpos (digits2_pos p) <= 2 ^ (d - 1))
      by (apply Z.pow_le_mono_r; lia). lia.
  - assert (2 ^ d <= 2 ^ (Zpos (digits2_pos p) - 1))
      by (apply Z.pow_le_mono_r; lia). lia.
Qed.

Lemma loc_of_shr_record_of_loc (m : Z) (l : location) :
  loc_of_shr_record (shr_record_of_loc m l) = l.
Proof. destruct l as [|[]]; reflexivity. Qed.

Lemma shr_m_of_loc (m : Z) (l : location) : shr_m (shr_record_of_loc m l) = m.
Proof. destruct l as [|[]]; reflexivity. Qed.

Lemma round_nearest_even_bounds (m : Z) (l : location) :
  m <= round_nearest_even m l <= m + 1
  /\ (l = loc_Exact -> round_nearest_even m l = m).
Proof.
  destruct l as [|[]]; simpl; try destruct (Z.even m);
    (split; [lia | intros; first [reflexivity | discriminate]]).
Qed.

Lemma fexp_normal (d e : Z) :
  -1074 <= d + e - 53 -> fexp prec emax (d + e) = d + e - 53.
Proof. unfold fexp, emin, prec, emax. lia. Qed.

(** Rounding a 53-bit mantissa: no shift. *)
Lemma binary_round_aux_53 (m : positive) (e : Z) (l : location) :
  Zpos (digits2_pos m) = 53 ->
  round_nearest_even (Zpos m) l < 2 ^ 53 ->
  -1074 <= e <= 971 ->
  binary_round_aux prec emax false (Zpos m) e l
  = S754_finite false (Z.to_pos (round_nearest_even (Zpos m) l)) e.
Proof.
  intros Hd HM He. unfold binary_round_aux, shr_fexp.
  unfold Zdigits2 at 1. rewrite Hd, fexp_normal by lia.
  replace (53 + e - 53 - e) with 0 by lia. unfold shr at 1.
  rewrite loc_of_shr_record_of_loc, shr_m_of_loc.
  pose proof (round_nearest_even_bounds (Zpos m) l) as [[Hlo _] _].
  pose proof (digits2_bounds m) as [Hm _]. rewrite Hd in Hm.
  destruct (round_nearest_even (Zpos m) l) as [|M|M] eqn:HM'; [lia| |lia].
  unfold Zdigits2. rewrite (digits2_unique M 53) by (simpl in Hm; lia).
  rewrite fexp_normal by lia. replace (53 + e - 53 - e) with 0 by lia.
  simpl. unfold emax, prec.
  destruct (Z.leb_spec e (1024 - 53)); [reflexivity | lia].
Qed.

(** Rounding a mantissa after one shift to the right: the lost bit and the
    location decide between the two neighbours. *)
Lemma shr_1_round (m : positive) (l : location) :
  let mrs := shr_1 (shr_record_of_loc (Zpos m) l) in
  let M := round_nearest_even (shr_m mrs) (loc_of_shr_record mrs) in
  Zpos m / 2 <= M <= Zpos m / 2 + 1
  /\ (Zpos m mod 2 = 0 -> M = Zpos m / 2)
  /\ (Zpos m mod 2 = 1 -> l <> loc_Exact -> M = Zpos m / 2 + 1).
Proof.
  assert (forall p, Zpos p~1 / 2 = Zpos p /\ Zpos p~1 mod 2 = 1) as HI.
  { intros p. rewrite Pos2Z.inj_xI. Z.div_mod_to_equations. lia. }
  assert (forall p, Zpos p~0 / 2 = Zpos p /\ Zpos p~0 mod 2 = 0) as HO.
  { intros p. rewrite Pos2Z.inj_xO. Z.div_mod_to_equations. lia. }
  destruct m as [p|p|].
  - destruct (HI p) as [-> ->].
    destruct l as [|[]];
      cbn [shr_1 shr_record_of_loc shr_m loc_of_shr_record
           round_nearest_even orb];
      try destruct (Z.even (Z.pos p));
      (split_and!; [lia|lia|intros; try lia|intros; try lia; try done]).
  - destruct (HO p) as [-> ->].
    destruct l as [|[]];
      cbn [shr_1 shr_record_of_loc shr_m loc_of_shr_record
           round_nearest_even orb];
      (split_and!; [lia|lia|intros; try lia|intros; try lia; try done]).
  - change (Z.pos 1 / 2) with 0. change (Z.pos 1 mod 2) with 1.
    destruct l as [|[]];
      cbn [shr_1 shr_record_of_loc shr_m loc_of_shr_record
           round_nearest_even orb Z.even];
      (split_and!; [lia|lia|intros; try lia|intros; try lia; try done]).
Qed.
(** Rounding a 54-bit mantissa: one shift. *)
Lemma binary_round_aux_54 (m : positive) (e : Z) (l : location) :
  Zpos (digits2_pos m) = 54 ->
  let mrs := shr_1 (shr_record_of_loc (Zpos m) l) in
  let M := round_nearest_even (shr_m mrs) (loc_of_shr_record mrs) in
  M < 2 ^ 53 ->
  -1075 <= e <= 970 ->
  binary_round_aux prec emax false (Zpos m) e l
  = S754_finite false (Z.to_pos M) (e + 1).
Proof.
  intros Hd mrs M HM He. unfold binary_round_aux, shr_fexp.
  unfold Zdigits2 at 1. rewrite Hd, fexp_normal by lia.
  replace (54 + e - 53 - e) with 1 by lia. unfold shr at 1.
  change (SpecFloat.iter_pos shr_1 1 (shr_record_of_loc (Zpos m) l)) with mrs.
  fold M.
  pose proof (shr_1_round m l) as [[Hlo _] _]. fold mrs M in Hlo.
  pose proof (digits2_bounds m) as [Hm _]. rewrite Hd in Hm.
  assert (2 ^ 52 <= Zpos m / 2) as Hhalf.
  { apply Z.div_le_lower_bound; [lia|]. change (2 * 2 ^ 52) with (2 ^ (54 - 1)).
    exact Hm. }
  destruct M as [|M'|M'] eqn:HM'; [lia| |lia].
  unfold Zdigits2. rewrite (digits2_unique M' 53) by (change (53 - 1) with 52; lia).
  replace (e + 1) with (1 + e) by lia.
  rewrite fexp_normal by lia. replace (53 + (1 + e) - 53 - (1 + e)) with 0 by lia.
  unfold shr. cbn [shr_m shr_record_of_loc]. unfold emax, prec.
  destruct (Z.leb_spec (1 + e) (1024 - 53)); [reflexivity | lia].
Qed.

Lemma iter_xO (p d : positive) :
  Zpos (Pos.iter xO p d) = Zpos p * 2 ^ Zpos d.
Proof.
  induction d as [|d IH] using Pos.peano_ind.
  - simpl. lia.
  - rewrite Pos.iter_succ, Pos2Z.inj_xO, IH, Pos2Z.inj_succ, Z.pow_succ_r by lia.
    lia.
Qed.

(** An integer below 2^53 is a double: the mantissa is the integer shifted
    to 53 bits. *)
Lemma Number_of_Z_pos (p : positive) :
  Zpos p < 2 ^ 53 ->
  exists (mx : positive) (S : Z),
    Number_of_Z (Zpos p) = S754_finite false mx (Zpos (digits2_pos p) - 53)
    /\ Zpos (digits2_pos mx) = 53
    /\ 1 <= Zpos (digits2_pos p) <= 53
    /\ 1 <= S /\ Zpos mx = Zpos p * S
    /\ 16 * S = 2 ^ (57 - Zpos (digits2_pos p)).
Proof.
  intros Hp. pose proof (digits2_bounds p) as [Hlo Hhi].
  set (D := Zpos (digits2_pos p)) in *.
  assert (1 <= D <= 53) as HD.
  { split; [unfold D; lia|]. destruct (Z.le_gt_cases D 53); [assumption|].
    assert (2 ^ 53 <= 2 ^ (D - 1)) by (apply Z.pow_le_mono_r; lia). lia. }
  assert (2 ^ (57 - D) = 16 * 2 ^ (53 - D)) as HT.
  { replace (57 - D) with (4 + (53 - D)) by lia.
    rewrite Z.pow_add_r by lia. reflexivity. }
  assert (2 ^ 52 <= Zpos p * 2 ^ (53 - D) < 2 ^ 53) as Hmx.
  { replace (2 ^ 52) with (2 ^ (D - 1) * 2 ^ (53 - D))
      by (rewrite <- Z.pow_add_r by lia; f_equal; lia).
    replace (2 ^ 53) with (2 ^ D * 2 ^ (53 - D))
      by (rewrite <- Z.pow_add_r by lia; f_equal; lia).
    assert (0 < 2 ^ (53 - D)) by (apply Z.pow_pos_nonneg; lia).
    split; [apply Z.mul_le_mono_nonneg_r; lia | apply Z.mul_lt_mono_pos_r; lia]. }
  assert (exists mx, Zpos mx = Zpos p * 2 ^ (53 - D)
            /\ shl_align p 0 (D - 53) = (mx, D - 53)) as (mx & Hmx' & Hsh).
  { unfold shl_align. replace (D - 53 - 0) with (D - 53) by lia.
    destruct (D - 53) as [|d|d] eqn:Hd; [|lia|].
    - exists p. replace (53 - D) with 0 by lia. split; [lia|reflexivity].
    - exists (Pos.iter xO p d). split; [|reflexivity].
      rewrite iter_xO. do 2 f_equal. lia. }
  exists mx, (2 ^ (53 - D)).
  assert (Zpos (digits2_pos mx) = 53) as Hdm
    by (apply digits2_unique; rewrite Hmx'; exact Hmx).
  split_and!; [|exact Hdm|lia|lia| |exact Hmx'|lia].
  - unfold Number_of_Z, binary_normalize, binary_round. fold D.
    replace (D + 0) with (D + 0 - 53 + 53) at 1 by lia.
    replace (fexp prec emax (D + 0 - 53 + 53)) with (D - 53)
      by (unfold fexp, emin, prec, emax; lia).
    rewrite Hsh, binary_round_aux_53; [|exact Hdm| |lia].
    + reflexivity.
    + simpl. lia.
  - assert (0 < 2 ^ (53 - D)) by (apply Z.pow_pos_nonneg; lia). lia.
Qed.

Lemma Number_of_Z_ten :
  Number_of_Z itemsPerPage = S754_finite false 5629499534213120 (-49).
Proof. vm_compute. reflexivity. Qed.

(** The core of the division by ten: quotient and remainder of the
    dividend's mantissa, shifted by 53 bits, by the mantissa of ten. *)
Lemma SFdiv_core_ten (mx : positive) (ex : Z) :
  Zpos (digits2_pos mx) = 53 -> -52 <= ex <= 0 ->
  exists q r : Z,
    SFdiv_core_binary prec emax (Zpos mx) ex 5629499534213120 (-49)
    = (q, ex - 4, new_location 5629499534213120 r)
    /\ Zpos mx * 2 ^ 53 = 5629499534213120 * q + r
    /\ 0 <= r < 5629499534213120.
Proof.
  intros Hd He. unfold SFdiv_core_binary. cbv zeta.
  change (Zdigits2 (Zpos mx)) with (Zpos (digits2_pos mx)). rewrite Hd.
  change (Zdigits2 5629499534213120) with 53.
  replace (53 + ex - (53 + -49)) with (53 + (ex - 4)) by lia.
  rewrite fexp_normal by lia.
  replace (53 + (ex - 4) - 53) with (ex - 4) by lia.
  change (IntDef.Z.min (ex - 4) (ex - -49)) with (Z.min (ex - 4) (ex - -49)).
  rewrite Z.min_l by lia.
  replace (ex - -49 - (ex - 4)) with 53 by lia.
  change (IntDef.Z.shiftl (Zpos mx) 53) with (Z.shiftl (Zpos mx) 53).
  rewrite Z.shiftl_mul_pow2 by lia.
  change (IntDef.Z.div_eucl ?a ?b) with (Z.div_eucl a b).
  pose proof (Z_div_mod (Zpos mx * 2 ^ 53) 5629499534213120 eq_refl) as Hqr.
  destruct (Z.div_eucl (Zpos mx * 2 ^ 53) 5629499534213120) as [q r].
  exists q, r. split; [reflexivity | exact Hqr].
Qed.

Lemma new_location_ten (r : Z) :
  (r = 0 -> new_location 5629499534213120 r = loc_Exact)
  /\ (r <> 0 -> new_location 5629499534213120 r <> loc_Exact).
Proof.
  unfold new_location. change (IntDef.Z.even 5629499534213120) with true.
  unfold new_location_even. destruct (Z.eqb_spec r 0); split; intros; done.
Qed.

Lemma ceil_div_unique (M T k : Z) :
  0 < T -> (k - 1) * T < M <= k * T -> - ((- M) / T) = k.
Proof.
  intros HT HM. assert (- k = (- M) / T) as <-; [|lia].
  apply (Z.div_unique_pos _ _ _ (k * T - M)); lia.
Qed.

(** Below 2^53 the double quotient rounds up to the exact ceiling. *)
Lemma pageCount_spec (n : Z) :
  0 <= n < 2 ^ 53 -> 10 * (pageCount n - 1) < n <= 10 * pageCount n.
Proof.
  intros [Hn0 Hn]. destruct n as [|p|p]; [vm_compute; split; [reflexivity|discriminate]| |lia].
  destruct (Number_of_Z_pos p Hn)
    as (mx & S & HN & Hdm & HD & HS & Hmx & HT).
  set (D := Zpos (digits2_pos p)) in *.
  set (k := (Zpos p + 9) / 10).
  assert (10 * (k - 1) < Zpos p <= 10 * k) as Hk
    by (unfold k; Z.div_mod_to_equations; lia).
  enough (pageCount (Zpos p) = k) as -> by exact Hk.
  unfold pageCount. rewrite HN, Number_of_Z_ten. unfold SFdiv.
  destruct (SFdiv_core_ten mx (D - 53) Hdm ltac:(lia))
    as (q & r & -> & Hqr & Hr).
  cbn [xorb].
  pose proof (digits2_bounds mx) as Hmb. rewrite Hdm in Hmb.
  change (2 ^ (53 - 1)) with 4503599627370496 in Hmb.
  change (2 ^ 53) with 9007199254740992 in Hmb, Hqr, Hn.
  destruct (new_location_ten r) as [Hex Hinex].
  set (l := new_location 5629499534213120 r) in *.
  set (KS := (k - 1) * S).
  assert (Zpos mx = 10 * KS + (Zpos p - 10 * (k - 1)) * S) as HP
    by (unfold KS; lia).
  set (P := (Zpos p - 10 * (k - 1)) * S) in HP.
  assert (S <= P <= 10 * S) as HPb by (unfold P; nia).
  assert (k * S = KS + S) as HkS by (unfold KS; lia).
  clearbody P KS.
  destruct q as [|q|q]; [lia| |lia].
  destruct (Z.lt_ge_cases (Zpos q) 9007199254740992) as [Hq|Hq].
  - pose proof (round_nearest_even_bounds (Zpos q) l) as [HM HMex].
    rewrite binary_round_aux_53;
      [|apply digits2_unique; change (2 ^ (53 - 1)) with 4503599627370496;
        change (2 ^ 53) with 9007199254740992; lia
       |change (2 ^ 53) with 9007199254740992; lia
       |lia].
    set (M := round_nearest_even (Zpos q) l) in *.
    unfold Math_ceil. cbv zeta.
    destruct (Z.leb_spec 0 (D - 53 - 4)); [lia|].
    rewrite Z2Pos.id by lia.
    replace (- (D - 53 - 4)) with (57 - D) by lia. rewrite <- HT.
    apply ceil_div_unique; [lia|].
    replace ((k - 1) * (16 * S)) with (16 * KS) by lia.
    replace (k * (16 * S)) with (16 * KS + 16 * S) by lia.
    destruct (Z.eq_dec r 0) as [Hr0|Hr0].
    + rewrite (HMex (Hex Hr0)). lia.
    + lia.
  - pose proof (shr_1_round q l) as (HM & HMev & HModd).
    rewrite binary_round_aux_54;
      [|apply digits2_unique; change (2 ^ (54 - 1)) with 9007199254740992;
        change (2 ^ 54) with 18014398509481984; lia
       |change (2 ^ 53) with 9007199254740992; cbv zeta in HM;
        Z.div_mod_to_equations; lia
       |lia].
    cbv zeta in HM, HMev, HModd.
    set (M := round_nearest_even _ _) in *.
    unfold Math_ceil. cbv zeta.
    destruct (Z.leb_spec 0 (D - 53 - 4 + 1)); [lia|].
    assert (Zpos q / 2 <= M) as HM0 by lia.
    rewrite Z2Pos.id by (Z.div_mod_to_equations; lia).
    assert (2 ^ (- (D - 53 - 4 + 1)) = 8 * S) as ->.
    { assert (2 ^ (57 - D) = 2 * 2 ^ (- (D - 53 - 4 + 1))) as HT2.
      { replace (57 - D) with (Z.succ (- (D - 53 - 4 + 1))) by lia.
        apply Z.pow_succ_r. lia. }
      lia. }
    apply ceil_div_unique; [lia|].
    replace ((k - 1) * (8 * S)) with (8 * KS) by lia.
    replace (k * (8 * S)) with (8 * KS + 8 * S) by lia.
    destruct (Z.eq_dec (Zpos q mod 2) 0) as [Hev|Hodd].
    + rewrite (HMev Hev). Z.div_mod_to_equations. lia.
    + assert (Zpos q mod 2 = 1) as Hodd' by (Z.div_mod_to_equations; lia).
      destruct (Z.eq_dec r 0) as [Hr0|Hr0].
      * Z.div_mod_to_equations. lia.
      * rewrite (HModd Hodd' (Hinex Hr0)). Z.div_mod_to_equations. lia.
Qed.

(** *** No NaN in the page count *)

Lemma shr_1_nonneg (mrs : shr_record) :
  0 <= shr_m mrs -> 0 <= shr_m (shr_1 mrs).
Proof.
  destruct mrs as [m r s]. destruct m as [|[p|p|]|p];
    cbn [shr_1 shr_m]; lia.
Qed.

Lemma iter_shr_1_nonneg (p : positive) (mrs : shr_record) :
  0 <= shr_m mrs -> 0 <= shr_m (SpecFloat.iter_pos shr_1 p mrs).
Proof.
  revert mrs. induction p as [p IH|p IH|]; intros mrs Hm;
    cbn [SpecFloat.iter_pos].
  - apply IH, IH, shr_1_nonneg, Hm.
  - apply IH, IH, Hm.
  - apply shr_1_nonneg, Hm.
Qed.

Lemma shr_fexp_nonneg (m e : Z) (l : location) :
  0 <= m -> 0 <= shr_m (shr_fexp prec emax m e l).1.
Proof.
  intros Hm. unfold shr_fexp, shr.
  destruct (fexp prec emax (Zdigits2 m + e) - e) as [|p|p]; cbn [fst].
  - by rewrite shr_m_of_loc.
  - apply iter_shr_1_nonneg. by rewrite shr_m_of_loc.
  - by rewrite shr_m_of_loc.
Qed.

(** Rounding a mantissa that is not negative does not make a NaN. *)
Lemma binary_round_aux_not_NaN (s : bool) (m e : Z) (l : location) :
  0 <= m -> binary_round_aux prec emax s m e l <> S754_nan.
Proof.
  intros Hm. unfold binary_round_aux.
  pose proof (shr_fexp_nonneg m e l Hm) as H1.
  destruct (shr_fexp prec emax m e l) as [mrs' e']. cbn [fst] in H1.
  pose proof (round_nearest_even_bounds (shr_m mrs') (loc_of_shr_record mrs'))
    as [[H2 _] _].
  pose proof (shr_fexp_nonneg
                (round_nearest_even (shr_m mrs') (loc_of_shr_record mrs'))
                e' loc_Exact ltac:(lia)) as H3.
  destruct (shr_fexp prec emax _ e' loc_Exact) as [mrs'' e''].
  cbn [fst] in H3.
  destruct (shr_m mrs'') as [|p|p]; [done| |lia].
  by destruct (e'' <=? emax - prec).
Qed.

Lemma Number_of_Z_not_NaN (n : Z) : Number_of_Z n <> S754_nan.
Proof.
  unfold Number_of_Z, binary_normalize. destruct n as [|p|p]; [done|..];
    unfold binary_round;
    destruct (shl_align p 0 _) as [mz ez];
    by apply binary_round_aux_not_NaN.
Qed.

(** The quotient of line 23 is a number: [Math_ceil] never meets a NaN. *)
Lemma quotient_not_NaN (n : Z) :
  SFdiv prec emax (Number_of_Z n) (Number_of_Z itemsPerPage) <> S754_nan.
Proof.
  rewrite Number_of_Z_ten. pose proof (Number_of_Z_not_NaN n) as Hn.
  destruct (Number_of_Z n) as [sx|sx| |sx mx ex]; [done|done|done|].
  unfold SFdiv, SFdiv_core_binary. cbv zeta.
  set (m' := match _ with 0 => Zpos mx | Zpos _ => _ | Zneg _ => 0 end).
  assert (0 <= m') as Hm'.
  { unfold m'. destruct (_ - _) as [|p|p]; [lia| |lia].
    change (IntDef.Z.shiftl ?a ?b) with (Z.shiftl a b).
    apply Z.shiftl_nonneg. lia. }
  change (IntDef.Z.div_eucl ?a ?b) with (Z.div_eucl a b).
  pose proof (Z_div_mod m' 5629499534213120 eq_refl) as Hqr.
  destruct (Z.div_eucl m' 5629499534213120) as [q r].
  apply binary_round_aux_not_NaN. lia.
Qed.

(** The bound of [pageCount_spec] is where the integers stop being doubles:
    2^53 + 9 is read as 2^53 + 8, and the page count is one short of the
    ceiling 900719925474101. *)
Lemma pageCount_above_2_53 : pageCount 9007199254741001 = 900719925474100.
Proof. vm_compute. reflexivity. Qed.

(** ** Strings *)

Lemma append_assoc (a b c : string) : (a +:+ b) +:+ c = a +:+ b +:+ c.
Proof.
  induction a as [|x a IH]; [done|].
  change (String x ((a +:+ b) +:+ c) = String x (a +:+ b +:+ c)).
  by rewrite IH.
Qed.

Lemma truthy_true (s : string) : truthy s = true <-> s <> "".
Proof.
  unfold truthy. rewrite negb_true_iff. apply String.eqb_neq.
Qed.

Lemma truthy_false (s : string) : truthy s = false <-> s = "".
Proof.
  unfold truthy. rewrite negb_false_iff. apply String.eqb_eq.
Qed.


Lemma charactersURL_empty (page : Z) :
  charactersURL "" page = endpoint +:+ "page=" +:+ pretty page.
Proof. reflexivity. Qed.

Lemma charactersURL_query (query : string) (page : Z) :
  query <> "" ->
  charactersURL query page
  = endpoint +:+ "search=" +:+ query +:+ "&page=" +:+ pretty page.
Proof.
  intros Hq. apply truthy_true in Hq. unfold charactersURL. rewrite Hq.
  rewrite (append_assoc "search=" (query +:+ "&")), (append_assoc query "&").
  reflexivity.
Qed.

(** ** Bookkeeping of requests *)

Lemma waits_for_rids (rid : nat) (t : Task) :
  waits_for rid t = true <-> rid ∈ rids_of t.
Proof.
  destruct t as [r|rids t]; simpl.
  - rewrite Nat.eqb_eq, list_elem_of_singleton. split; congruence.
  - by rewrite bool_decide_eq_true.
Qed.

Lemma take_task_Some (rid : nat) (ts : list Task) (t : Task) (rest : list Task) :
  take_task rid ts = Some (t, rest) ->
  ts ≡ₚ t :: rest /\ rid ∈ rids_of t.
Proof.
  revert t rest. induction ts as [|t0 ts IH]; intros t rest; simpl; [done|].
  destruct (waits_for rid t0) eqn:Hw.
  - intros [= <- <-]. split; [done | by apply waits_for_rids].
  - destruct (take_task rid ts) as [[t' rest']|]; [|done].
    intros [= <- <-]. destruct (IH _ _ eq_refl) as [Hp Hin].
    split; [|done]. rewrite Hp. apply Permutation_swap.
Qed.

Lemma take_task_found (rid : nat) (ts : list Task) (t : Task) :
  NoDup (ts ≫= rids_of) -> t ∈ ts -> rid ∈ rids_of t ->
  exists rest, take_task rid ts = Some (t, rest).
Proof.
  induction ts as [|t0 ts IH]; intros Hnd Hin Hrid; [by inversion Hin|].
  rewrite bind_cons in Hnd. apply NoDup_app in Hnd as (_ & Hdisj & Hnd).
  simpl. destruct (waits_for rid t0) eqn:Hw.
  - apply waits_for_rids in Hw.
    apply elem_of_cons in Hin as [<-|Hin]; [by eexists|].
    exfalso. apply (Hdisj rid Hw). apply list_elem_of_bind. eauto.
  - apply elem_of_cons in Hin as [->|Hin].
    + apply waits_for_rids in Hrid. congruence.
    + destruct (IH Hnd Hin Hrid) as [rest ->]. by eexists.
Qed.

Lemma wf_with_ui (f : UIState -> UIState) (w : World) : wf w -> wf (with_ui f w).
Proof. done. Qed.

Lemma wf_console_error (l : string) (e : Error) (w : World) :
  wf w -> wf (console_error l e w).
Proof. done. Qed.

Lemma wf_set_debounced (d : option (string * nat)) (w : World) :
  wf w -> wf (set_debounced d w).
Proof. done. Qed.

Lemma wf_issue (urls : list URL) (t : Task) (w : World) :
  rids_of t = seq (length (requests w)) (length urls) ->
  wf w ->
  wf (spawn t (axios_get_all urls w).2).
Proof.
  intros Ht [Hnd Hlt]. unfold wf, spawn; simpl.
  rewrite bind_app, bind_cons, Ht; simpl. rewrite !app_nil_r, length_app.
  split.
  - apply NoDup_app. split_and!; [done| |apply NoDup_seq].
    intros rid Hin Hseq. apply elem_of_seq in Hseq.
    rewrite Forall_forall in Hlt. specialize (Hlt rid Hin). lia.
  - apply Forall_app. split.
    + eapply Forall_impl; [exact Hlt|]. simpl. lia.
    + apply Forall_forall. intros rid Hseq. apply elem_of_seq in Hseq. lia.
Qed.

Lemma wf_fetchCharacters (query : string) (page : Z) (w : World) :
  wf w -> wf (fetchCharacters query page w).
Proof.
  intros Hw. unfold fetchCharacters, axios_get.
  by apply (wf_issue [charactersURL query page]), wf_with_ui.
Qed.

Lemma wf_useEffects (prev : UIState) (w : World) : wf w -> wf (useEffects prev w).
Proof.
  intros Hw. unfold useEffects.
  destruct (decide (currentPage (ui w) = currentPage prev));
    case_decide; try apply wf_set_debounced; try apply wf_fetchCharacters;
    done.
Qed.

Lemma wf_take (rid : nat) (t : Task) (rest : list Task) (w : World) :
  wf w -> take_task rid (tasks w) = Some (t, rest) ->
  wf (set_tasks rest w)
  /\ NoDup (rids_of t)
  /\ (forall r, r ∈ rids_of t -> r ∉ rest ≫= rids_of)
  /\ Forall (fun r => (r < length (requests w))%nat) (rids_of t).
Proof.
  intros [Hnd Hlt] Ht. apply take_task_Some in Ht as [Hp _].
  rewrite Hp, bind_cons in Hnd, Hlt.
  apply NoDup_app in Hnd as (? & ? & ?). apply Forall_app in Hlt as [? ?].
  by repeat split.
Qed.

Lemma wf_respawn (t : Task) (w : World) :
  wf w -> NoDup (rids_of t) ->
  (forall r, r ∈ rids_of t -> r ∉ tasks w ≫= rids_of) ->
  Forall (fun r => (r < length (requests w))%nat) (rids_of t) ->
  wf (spawn t w).
Proof.
  intros [Hnd Hlt] Hnd' Hdisj Hlt'. unfold wf, spawn; simpl.
  rewrite bind_app, bind_cons; simpl. rewrite app_nil_r. split.
  - apply NoDup_app. split_and!; [done| |done].
    intros r Hr Hr'. by apply (Hdisj r).
  - by apply Forall_app.
Qed.

Lemma wf_proceed (rids : list nat) (p : Progress) (w : World) :
  wf w -> NoDup rids ->
  (forall r, r ∈ rids -> r ∉ tasks w ≫= rids_of) ->
  Forall (fun r => (r < length (requests w))%nat) rids ->
  wf (proceed rids p w).
Proof.
  intros Hw Hnd Hdisj Hlt. destruct p as [gets t|t|d|e]; simpl.
  - by apply (wf_issue gets).
  - by apply wf_respawn.
  - by apply wf_with_ui.
  - by apply wf_console_error.
Qed.

Lemma wf_step (w w' : World) (ev : Event) :
  wf w -> step w ev = Some w' -> wf w'.
Proof.
  intros Hw. destruct ev; simpl.
  - intros [= <-]. by apply wf_useEffects, wf_with_ui.
  - destruct (truthy _); [|done]. intros [= <-].
    by apply wf_useEffects, wf_with_ui.
  - destruct (debounced w) as [[query remaining]|]; [|by intros [= <-]].
    destruct (_ <=? _)%nat; intros [= <-]; [|done].
    by apply wf_useEffects, wf_fetchCharacters, wf_with_ui.
  - destruct (pagination_shown _); [|done]. intros [= <-].
    by apply wf_useEffects, wf_with_ui.
  - destruct (_ && _); [|done]. intros [= <-].
    by apply wf_useEffects, wf_with_ui.
  - destruct (pagination_shown _); [|done]. intros [= <-].
    by apply wf_useEffects, wf_with_ui.
  - destruct (loading _); [done|].
    destruct (_ !! _) as [char|]; [|done]. intros [= <-].
    apply wf_proceed; [done|constructor| |constructor].
    intros r Hr. by inversion Hr.
  - destruct (selectedChar _); [|done]. intros [= <-]. by apply wf_with_ui.
  - destruct (take_task rid (tasks w)) as [[[r|rids t] rest]|] eqn:Ht; [|done..].
    intros [= <-]. destruct (wf_take _ _ _ _ Hw Ht) as (Hrest & _).
    unfold fetchCharacters_settled.
    destruct o; by repeat first [apply wf_with_ui | apply wf_console_error].
  - destruct (take_task rid (tasks w)) as [[[r|rids t] rest]|] eqn:Ht; [done| |done].
    destruct (slot_of rid rids) as [i|]; [|done]. simpl.
    destruct (resume t i o) as [p|]; [|done]. simpl. intros [= <-].
    destruct (wf_take _ _ _ _ Hw Ht) as (Hrest & Hnd & Hdisj & Hlt).
    by apply wf_proceed.
Qed.

Lemma wf_mounted : wf mounted.
Proof.
  apply wf_set_debounced, wf_fetchCharacters. split; constructor.
Qed.

Lemma wf_run (evs : list Event) (w w' : World) :
  wf w -> run w evs = Some w' -> wf w'.
Proof.
  revert w. induction evs as [|ev evs IH]; intros w Hw; simpl.
  - by intros [= <-].
  - destruct (step w ev) as [w1|] eqn:Hs; [|done].
    apply IH. by eapply wf_step.
Qed.

Lemma reachable_wf (w : World) : reachable w -> wf w.
Proof. intros [evs Hr]. by eapply wf_run; [apply wf_mounted|]. Qed.

Lemma reachable_step (w w' : World) (ev : Event) :
  reachable w -> step w ev = Some w' -> reachable w'.
Proof.
  intros [evs Hr] Hs. exists (evs ++ [ev]). revert Hr.
  generalize mounted. induction evs as [|e evs IH]; intros w0; simpl.
  - intros [= ->]. by rewrite Hs.
  - destruct (step w0 e); [apply IH | done].
Qed.

(** ** The List Fetch Controller *)

Lemma step_CharactersResponse (w w' : World) (rid : nat) (o : Outcome PageResult) :
  step w (CharactersResponse rid o) = Some w' ->
  exists r rest,
    take_task rid (tasks w) = Some (FetchCharacters r, rest)
    /\ w' = fetchCharacters_settled o (set_tasks rest w).
Proof.
  simpl. destruct (take_task rid (tasks w)) as [[[r|rids t] rest]|]; [|done..].
  intros [= <-]. by exists r, rest.
Qed.

(** C9: [fetchCharacters] issues exactly one GET; its URL carries the
    [search] parameter exactly when the query is not empty, and it always
    ends with the [page] parameter. *)
Theorem fetchCharacters_request (query : string) (page : Z) (w : World) :
  requests (fetchCharacters query page w)
  = requests w ++ [charactersURL query page]
  /\ (has_search_param (charactersURL query page) = true <-> query <> "")
  /\ has_page_param page (charactersURL query page)
  /\ (query <> "" ->
      charactersURL query page
      = endpoint +:+ "search=" +:+ query +:+ "&page=" +:+ pretty page)
  /\ (query = "" ->
      charactersURL query page = endpoint +:+ "page=" +:+ pretty page).
Proof.
  split_and!.
  - reflexivity.
  - destruct (decide (query = "")) as [->|Hq].
    + split; [discriminate | done].
    + split; [done|]. intros _. rewrite charactersURL_query by done.
      destruct query as [|a query]; [done | reflexivity].
  - exists (endpoint +:+ (if truthy query then "search=" +:+ query +:+ "&" else "")).
    unfold charactersURL. by rewrite append_assoc.
  - apply charactersURL_query.
  - intros ->. apply charactersURL_empty.
Qed.

(** C7, as amended: when a list fetch resolves with a non-negative [total]
    below 2^53, the controller sets [totalPages] to the ceiling of
    [total / 10]: the one integer [p] with [10 * (p - 1) < total <= 10 * p]. *)
Theorem totalPages_is_ceiling (w w' : World) (rid : nat) (data : PageResult) :
  0 <= total data < 2 ^ 53 ->
  step w (CharactersResponse rid (Resolved data)) = Some w' ->
  10 * (totalPages (ui w') - 1) < total data <= 10 * totalPages (ui w').
Proof.
  intros Ht Hs. apply step_CharactersResponse in Hs as (r & rest & _ & ->).
  apply pageCount_spec, Ht.
Qed.

Lemma totalPages_is_ceiling_witness :
  exists w',
    step mounted (CharactersResponse 0 (Resolved (page_of 25))) = Some w'
    /\ 10 * (totalPages (ui w') - 1) < 25 <= 10 * totalPages (ui w').
Proof.
  eexists. split; [reflexivity|].
  apply (totalPages_is_ceiling mounted _ 0%nat (page_of 25));
    [vm_compute; split; [discriminate | reflexivity] | reflexivity].
Defined.

(** C7, as stated, fails: a list fetch that resolves with a [total] of
    100000000000000048, a double, leaves [totalPages] at 10000000000000004,
    one below the ceiling of [total / 10]: the quotient of the two doubles
    is rounded down to an integer before [Math.ceil] sees it. *)
Lemma totalPages_below_ceiling_of_large_total :
  exists w',
    0 <= total (page_of 100000000000000048)
    /\ step mounted
         (CharactersResponse 0 (Resolved (page_of 100000000000000048)))
       = Some w'
    /\ totalPages (ui w') = 10000000000000004
    /\ ~ (10 * (totalPages (ui w') - 1)
          < total (page_of 100000000000000048)
          <= 10 * totalPages (ui w')).
Proof.
  eexists. split_and!; [discriminate | reflexivity | vm_compute; reflexivity |].
  vm_compute. intros [_ Hle]. by apply Hle.
Qed.

(** C2: [fetchCharacters] sets [loading] when it starts; whenever its GET
    settles, resolved or rejected, the suspended call runs to its end and
    leaves [loading] cleared; after a rejection [characters] is empty,
    [totalPages] is 1, the error is on the console and no request was
    issued again. *)
Theorem fetchCharacters_loading (query : string) (page : Z) (w0 w : World)
    (rid : nat) (o : Outcome PageResult) :
  reachable w ->
  FetchCharacters rid ∈ tasks w ->
  loading (ui (fetchCharacters query page w0)) = true
  /\ exists w',
      step w (CharactersResponse rid o) = Some w'
      /\ loading (ui w') = false
      /\ tasks w ≡ₚ FetchCharacters rid :: tasks w'
      /\ requests w' = requests w
      /\ forall e, o = Rejected e ->
           characters (ui w') = []
           /\ totalPages (ui w') = 1
           /\ console w' = console w ++ [("Error fetching characters:", e)].
Proof.
  intros Hw Hin. split; [reflexivity|].
  apply reachable_wf in Hw as [Hnd _].
  destruct (take_task_found rid _ _ Hnd Hin) as [rest Ht];
    [apply list_elem_of_singleton; reflexivity|].
  exists (fetchCharacters_settled o (set_tasks rest w)).
  simpl. rewrite Ht. split_and!; [done|done| |by destruct o|].
  - apply take_task_Some in Ht as [Hp _]. by destruct o.
  - by intros e ->.
Qed.

Lemma fetchCharacters_loading_witness :
  loading (ui (fetchCharacters "Luke" 1 mounted)) = true
  /\ exists w',
      step mounted (CharactersResponse 0 (Rejected "Network Error")) = Some w'
      /\ loading (ui w') = false
      /\ characters (ui w') = []
      /\ totalPages (ui w') = 1
      /\ console w' = [("Error fetching characters:", "Network Error")].
Proof.
  destruct (fetchCharacters_loading "Luke" 1 mounted mounted 0%nat
              (Rejected "Network Error"))
    as (Hstart & w' & Hstep & Hload & _ & _ & Herr).
  - exists []. reflexivity.
  - simpl. apply list_elem_of_here.
  - split; [exact Hstart|]. exists w'.
    destruct (Herr _ eq_refl) as (Hc & Ht & Hlog). by repeat split.
Defined.

(** ** One enrichment against a network *)

Section Enrichment.
Variable net : Network.
Variable char : Character.

Lemma films_step_suspends c d t : films_step c d <> Waiting t.
Proof. unfold films_step. by destruct (films c) as [[|??]|]. Qed.

Lemma species_step_suspends c d t : species_step c d <> Waiting t.
Proof.
  unfold species_step.
  destruct (species c) as [[|??]|]; try done; apply films_step_suspends.
Qed.

Lemma fetchCharacterDetails_suspends c t : fetchCharacterDetails c <> Waiting t.
Proof.
  unfold fetchCharacterDetails.
  destruct (homeworld c) as [url|]; [destruct (truthy url)|]; try done;
    apply species_step_suspends.
Qed.

Lemma suspended_prefix log gets t :
  suspended net char log gets t -> log `prefix_of` sub_fetches char.
Proof.
  unfold sub_fetches. intros [url Hu|url Hhw Hu|slots Hhw Hsp Hf Hall].
  - rewrite Hu. by apply prefix_app_r.
  - rewrite Hu, (assoc_L (++)). by apply prefix_app_r.
  - done.
Qed.

Lemma films_step_ok :
  Forall (fetched net) (homeworld_gets char) ->
  Forall (fetched net) (species_gets char) ->
  progress_ok net char (homeworld_gets char ++ species_gets char)
    (films_step char
       (details_at net char (species_name (spec_details net char)))).
Proof.
  intros Hhw Hsp. unfold films_step.
  destruct (films char) as [[|url urls]|] eqn:Hf; simpl.
  - unfold spec_details, sub_fetches, films_gets. rewrite Hf, !app_nil_r.
    split_and!; [done..|]. by apply Forall_app.
  - rewrite <- (assoc_L (++)).
    replace (url :: urls) with (films_gets char)
      by (unfold films_gets; by rewrite Hf).
    apply suspended_films; [done..| |].
    + unfold films_gets. by rewrite Hf.
    + unfold films_gets at 1. rewrite Hf. simpl.
      constructor; [done|]. clear. induction urls; constructor; done.
  - unfold spec_details, sub_fetches, films_gets. rewrite Hf, !app_nil_r.
    split_and!; [done..|]. by apply Forall_app.
Qed.

Lemma species_step_ok :
  Forall (fetched net) (homeworld_gets char) ->
  progress_ok net char (homeworld_gets char)
    (species_step char (details_at net char None)).
Proof.
  intros Hhw. unfold species_step.
  destruct (species char) as [[|url urls]|] eqn:Hs.
  - assert (species_gets char = []) as Hg
      by (unfold species_gets; by rewrite Hs).
    rewrite <- (app_nil_r (homeworld_gets char)), <- Hg.
    replace (set_species_name "Unknown" (details_at net char None))
      with (details_at net char (species_name (spec_details net char)))
      by (unfold details_at, set_species_name; simpl; by rewrite Hg).
    apply films_step_ok; [done | by rewrite Hg].
  - apply suspended_species; [done|]. unfold species_gets. by rewrite Hs.
  - assert (species_gets char = []) as Hg
      by (unfold species_gets; by rewrite Hs).
    rewrite <- (app_nil_r (homeworld_gets char)), <- Hg.
    replace (set_species_name "Unknown" (details_at net char None))
      with (details_at net char (species_name (spec_details net char)))
      by (unfold details_at, set_species_name; simpl; by rewrite Hg).
    apply films_step_ok; [done | by rewrite Hg].
Qed.

Lemma fetchCharacterDetails_ok :
  progress_ok net char [] (fetchCharacterDetails char).
Proof.
  unfold fetchCharacterDetails.
  assert (homeworld_gets char = [] ->
          progress_ok net char []
            (species_step char
               {| spread := char; homeworld_name := None;
                  species_name := None; film_titles := None |})) as Hskip.
  { intros Hg. rewrite <- Hg at 1.
    replace {| spread := char; homeworld_name := None;
               species_name := None; film_titles := None |}
      with (details_at net char None)
      by (unfold details_at; simpl; by rewrite Hg).
    apply species_step_ok. by rewrite Hg. }
  destruct (homeworld char) as [url|] eqn:Hh.
  - destruct (truthy url) eqn:Ht.
    + apply suspended_homeworld. unfold homeworld_gets. by rewrite Hh, Ht.
    + apply Hskip. unfold homeworld_gets. by rewrite Hh, Ht.
  - apply Hskip. unfold homeworld_gets. by rewrite Hh.
Qed.

Lemma slots_titles (urls : list URL) (slots : list (option Resource))
    (fs : list Resource) :
  Forall2 (fun url slot => forall f, slot = Some f -> net url = Resolved f)
          urls slots ->
  mapM id slots = Some fs ->
  map data_title fs = title_at net <$> urls /\ Forall (fetched net) urls.
Proof.
  intros Hall Hfs. apply mapM_Some_1 in Hfs. revert fs Hfs.
  induction Hall as [|url slot urls slots Hu _ IH]; intros fs Hfs.
  - by inversion Hfs.
  - inversion Hfs as [|? f ? fs' Hf Hfs']; simplify_eq/=.
    destruct (IH _ Hfs') as [Htl ?]. split.
    + csimpl. rewrite Htl. unfold title_at at 2. by rewrite (Hu f eq_refl).
    + constructor; [by exists f; apply Hu | done].
Qed.

Lemma resume_ok log gets t i url p :
  suspended net char log gets t ->
  gets !! i = Some url ->
  resume t i (net url) = Some p ->
  match p with
  | Waiting t' => suspended net char log gets t'
  | _ => progress_ok net char log p
  end.
Proof.
  intros Hs Hi Hr.
  destruct Hs as [u Hu|u Hhw Hu|slots Hhw Hsp Hf Hall].
  - destruct i; [|done]. simplify_eq/=.
    assert (log_ok : [url] `prefix_of` sub_fetches char).
    { unfold sub_fetches. rewrite Hu. by apply prefix_app_r. }
    destruct (net url) as [hw|e] eqn:Hn.
    + assert (Forall (fetched net) (homeworld_gets char)) as Hhw.
      { rewrite Hu. repeat constructor. by eexists. }
      pose proof (species_step_ok Hhw) as Hok. rewrite Hu in Hok at 1.
      replace (details_at net char None)
        with (set_homeworld_name (data_name hw)
                {| spread := char; homeworld_name := None;
                   species_name := None; film_titles := None |}) in Hok
        by (unfold details_at, set_homeworld_name, spec_details, name_at;
            simpl; rewrite Hu; simpl; by rewrite Hn).
      destruct (species_step _ _) eqn:Hp; try done.
      by apply species_step_suspends in Hp.
    + split; [|done]. exists url. split; [apply list_elem_of_here | done].
  - destruct i; [|done]. simplify_eq/=.
    destruct (net url) as [sp|e] eqn:Hn.
    + assert (Forall (fetched net) (species_gets char)) as Hsp.
      { rewrite Hu. repeat constructor. by eexists. }
      pose proof (films_step_ok Hhw Hsp) as Hok. rewrite Hu in Hok at 1.
      replace (details_at net char (species_name (spec_details net char)))
        with (set_species_name (data_name sp) (details_at net char None))
        in Hok
        by (unfold details_at, set_species_name, spec_details, name_at;
            simpl; rewrite Hu; simpl; by rewrite Hn).
      destruct (films_step _ _) eqn:Hp; try done.
      by apply films_step_suspends in Hp.
    + split.
      * exists url. split; [|done]. apply elem_of_app. right.
        apply list_elem_of_here.
      * unfold sub_fetches. rewrite Hu, (assoc_L (++)).
        by apply prefix_app_r.
  - simpl in Hr. destruct (slots !! i) as [[f0|]|] eqn:Hslot; [done| |done].
    destruct (net url) as [f|e] eqn:Hn; simplify_eq/=.
    + assert (Forall2 (fun url slot =>
                         forall f, slot = Some f -> net url = Resolved f)
                      (films_gets char) (<[i:=Some f]> slots)) as Hall'.
      { rewrite <- (list_insert_id (films_gets char) i url) by done.
        apply Forall2_insert; [done|]. by intros ? [= <-]. }
      destruct (mapM id (<[i:=Some f]> slots)) as [fs|] eqn:Hfs.
      * destruct (slots_titles _ _ _ Hall' Hfs) as [Htitles Hfilms].
        split_and!; [|done|].
        -- unfold set_film_titles, details_at, spec_details. simpl.
           by rewrite Htitles.
        -- unfold sub_fetches. by rewrite !Forall_app.
      * by apply suspended_films.
    + split; [|done]. exists url. split; [|done].
      unfold sub_fetches. rewrite !elem_of_app. do 2 right.
      by eapply list_elem_of_lookup_2.
Qed.

Lemma drive_ok log gets t arrivals :
  suspended net char log gets t ->
  progress_ok net char (drive net log gets t arrivals).1
              (drive net log gets t arrivals).2
  /\ forall gets' t', (drive net log gets t arrivals).2 <> Await gets' t'.
Proof.
  revert log gets t. induction arrivals as [|i rest IH]; intros log gets t Hs.
  - simpl. split; [by exists gets | done].
  - simpl. destruct (gets !! i) as [url|] eqn:Hi; simpl;
      [|exact (IH _ _ _ Hs)].
    destruct (resume t i (net url)) as [p|] eqn:Hr; [|exact (IH _ _ _ Hs)].
    pose proof (resume_ok _ _ _ _ _ _ Hs Hi Hr) as Hok.
    destruct p; simpl in *.
    + exact (IH _ _ _ Hok).
    + exact (IH _ _ _ Hok).
    + split; [exact Hok | discriminate].
    + split; [exact Hok | discriminate].
Qed.

Lemma enrich_ok arrivals :
  progress_ok net char (enrich net arrivals char).1
              (enrich net arrivals char).2
  /\ forall gets t, (enrich net arrivals char).2 <> Await gets t.
Proof.
  unfold enrich. pose proof fetchCharacterDetails_ok as Hok.
  destruct (fetchCharacterDetails char) as [gets t|t|d|e] eqn:Hstart; simpl.
  - apply drive_ok. exact Hok.
  - by apply fetchCharacterDetails_suspends in Hstart.
  - split; [exact Hok | discriminate].
  - split; [exact Hok | discriminate].
Qed.

Lemma mapM_id_None {A} (l : list (option A)) :
  mapM id l = None -> exists j, l !! j = Some None.
Proof.
  induction l as [|[x|] l IH]; csimpl; [done| |by exists 0%nat].
  destruct (mapM id l); [done|]. intros _.
  destruct (IH eq_refl) as [j Hj]. by exists (S j).
Qed.

Lemma drive_films_finished order slots log gets d :
  NoDup order -> order <> [] -> length slots = length gets ->
  (forall i, i ∈ order <-> slots !! i = Some None) ->
  finished (drive net log gets (AwaitFilms d slots) order).2.
Proof.
  revert slots. induction order as [|i rest IH]; intros slots Hnd Hne Hlen Hpend;
    [done|].
  assert (slots !! i = Some None) as Hi by (apply Hpend; left).
  destruct (lookup_lt_is_Some_2 gets i) as [url Hurl].
  { rewrite <- Hlen. by eapply lookup_lt_Some. }
  simpl. rewrite Hurl. simpl. rewrite Hi.
  destruct (net url) as [f|e]; [|done].
  destruct (mapM id (<[i:=Some f]> slots)) eqn:Hall; [done|].
  apply NoDup_cons in Hnd as [Hnotin Hnd].
  assert (forall j, j ∈ rest <-> <[i:=Some f]> slots !! j = Some None) as Hpend'.
  { intros j. destruct (decide (i = j)) as [<-|Hij].
    - rewrite list_lookup_insert_eq by (by eapply lookup_lt_Some).
      split; [done | congruence].
    - rewrite list_lookup_insert_ne by done. rewrite <- Hpend.
      rewrite elem_of_cons.
      split; [tauto | intros [?|?]; [congruence | done]]. }
  apply IH; [done| |by rewrite length_insert|done].
  apply mapM_id_None in Hall as [j Hj]. apply Hpend' in Hj.
  intros ->. by inversion Hj.
Qed.

Lemma films_step_finished log c d order :
  order ≡ₚ seq 0 (length (films_gets c)) ->
  finished (continue net log (films_step c d) order).2.
Proof.
  intros Hperm. unfold films_step, films_gets in *.
  destruct (films c) as [[|url urls]|]; [done| |done].
  unfold continue. apply drive_films_finished.
  - rewrite Hperm. apply NoDup_seq.
  - intros ->. by apply Permutation_nil_l in Hperm.
  - apply length_replicate.
  - intros i. rewrite Hperm, elem_of_seq, lookup_replicate.
    split; [intros [_ ?]; split; [done | lia] | intros [_ ?]; lia].
Qed.

Lemma drive_arrival log gets t i rest url p :
  gets !! i = Some url ->
  resume t i (net url) = Some p ->
  (forall t', p <> Waiting t') ->
  drive net log gets t (i :: rest) = continue net log p rest.
Proof.
  intros Hi Hr Hp. simpl. rewrite Hi. simpl. rewrite Hr.
  destruct p; try done. by destruct (Hp t0).
Qed.

Lemma species_step_finished log c d order :
  order ≡ₚ seq 0 (length (films_gets c)) ->
  finished (continue net log (species_step c d)
              ((const 0%nat <$> species_gets c) ++ order)).2.
Proof.
  intros Hperm. unfold species_step, species_gets.
  destruct (species c) as [[|url urls]|];
    [by apply films_step_finished| |by apply films_step_finished].
  unfold continue.
  change ((const 0%nat <$> [url]) ++ order) with (0%nat :: order).
  destruct (net url) as [sp|e] eqn:Hn.
  - erewrite drive_arrival; [by apply films_step_finished|done| |].
    + simpl. by rewrite Hn.
    + intros t'. apply films_step_suspends.
  - erewrite drive_arrival; [|done| |]; [|simpl; by rewrite Hn|done]. done.
Qed.

Lemma enrich_finished c order :
  order ≡ₚ seq 0 (length (films_gets c)) ->
  finished (enrich net (schedule c order) c).2.
Proof.
  intros Hperm. unfold enrich, schedule, fetchCharacterDetails, homeworld_gets.
  destruct (homeworld c) as [url|];
    [destruct (truthy url)|]; [|by apply species_step_finished..].
  unfold continue.
  change ((const 0%nat <$> [url]) ++ ?l) with (0%nat :: l).
  destruct (net url) as [hw|e] eqn:Hn.
  - erewrite drive_arrival; [by apply species_step_finished|done| |].
    + simpl. by rewrite Hn.
    + intros t'. apply species_step_suspends.
  - erewrite drive_arrival; [|done| |]; [|simpl; by rewrite Hn|done]. done.
Qed.

(** Every sub-fetch resolves: the call commits the detail record of the
    specification, whatever the order in which the films arrive. *)
Lemma enrich_resolves order :
  Forall (fetched net) (sub_fetches char) ->
  order ≡ₚ seq 0 (length (films_gets char)) ->
  enrich net (schedule char order) char
  = (sub_fetches char, Committed (spec_details net char)).
Proof.
  intros Hall Hperm. pose proof (enrich_finished char order Hperm) as Hfin.
  destruct (enrich_ok (schedule char order)) as [Hok _].
  destruct (enrich net (schedule char order) char) as [log [| |d|e]];
    simpl in *; [done..| |].
  - by destruct Hok as (-> & -> & _).
  - destruct Hok as [(url & Hin & Hrej) Hpre].
    rewrite Forall_forall in Hall.
    destruct (Hall url) as [r Hr]; [|congruence].
    destruct Hpre as [k ->]. apply elem_of_app. by left.
Qed.

(** Some sub-fetch is rejected: the call never commits, and once every
    request had its chance to settle it is in the [catch] block. *)
Lemma enrich_rejects url e :
  url ∈ sub_fetches char -> net url = Rejected e ->
  (forall arrivals d, (enrich net arrivals char).2 <> Committed d)
  /\ forall order, order ≡ₚ seq 0 (length (films_gets char)) ->
       exists url' e',
         url' ∈ sub_fetches char /\ net url' = Rejected e'
         /\ (enrich net (schedule char order) char).2 = Caught e'.
Proof.
  intros Hin Hrej. split.
  - intros arrivals d Hd. destruct (enrich_ok arrivals) as [Hok _].
    rewrite Hd in Hok. destruct Hok as (_ & _ & Hall).
    rewrite Forall_forall in Hall. destruct (Hall url Hin) as [r Hr].
    congruence.
  - intros order Hperm. pose proof (enrich_finished char order Hperm) as Hfin.
    destruct (enrich_ok (schedule char order)) as [Hok _].
    destruct (enrich net (schedule char order) char) as [log [| |d|e']];
      simpl in *; [done..| |].
    + destruct Hok as (_ & _ & Hall).
      rewrite Forall_forall in Hall. destruct (Hall url Hin) as [r Hr].
      congruence.
    + destruct Hok as [(url' & Hin' & Hrej') [k ->]].
      exists url', e'. split_and!; [|done..].
      apply elem_of_app. by left.
Qed.
End Enrichment.


(** ** The Detail Enrichment Controller in the component *)

Lemma step_ResourceResponse (w w' : World) (rid : nat) (o : Outcome Resource) :
  step w (ResourceResponse rid o) = Some w' ->
  exists rids t rest i p,
    take_task rid (tasks w) = Some (FetchCharacterDetails rids t, rest)
    /\ slot_of rid rids = Some i
    /\ resume t i o = Some p
    /\ w' = proceed rids p (set_tasks rest w).
Proof.
  simpl. destruct (take_task rid (tasks w)) as [[[r|rids t] rest]|]; [done| |done].
  destruct (slot_of rid rids) as [i|] eqn:Hi; [simpl|done].
  destruct (resume t i o) as [p|] eqn:Hp; [simpl|done]. intros [= <-].
  by exists rids, t, rest, i, p.
Qed.

Lemma resume_Rejected (t : DetailsTask) (i : nat) (e : Error) (p : Progress) :
  resume t i (Rejected e) = Some p -> p = Caught e.
Proof.
  destruct t as [c d|c d|d slots]; simpl.
  - destruct i; [|done]. by intros [= <-].
  - destruct i; [|done]. by intros [= <-].
  - destruct (slots !! i) as [[f|]|]; [done| |done]. by intros [= <-].
Qed.

Lemma resume_pending (t : DetailsTask) (i : nat) (e : Error) :
  pending t i -> resume t i (Rejected e) = Some (Caught e).
Proof.
  destruct t as [c d|c d|d slots]; simpl; [by intros ->..|by intros ->].
Qed.

Lemma proceed_frame (rids : list nat) (p : Progress) (w : World) :
  characters (ui (proceed rids p w)) = characters (ui w)
  /\ search (ui (proceed rids p w)) = search (ui w)
  /\ currentPage (ui (proceed rids p w)) = currentPage (ui w)
  /\ totalPages (ui (proceed rids p w)) = totalPages (ui w)
  /\ loading (ui (proceed rids p w)) = loading (ui w)
  /\ selectedChar (ui (proceed rids p w))
     = match p with Committed d => Some d | _ => selectedChar (ui w) end.
Proof. by destruct p. Qed.

Lemma NoDup_bind_elem {A B} (f : A -> list B) (l : list A) (x : A) :
  NoDup (l ≫= f) -> x ∈ l -> NoDup (f x).
Proof.
  intros Hnd Hin. apply list_elem_of_split in Hin as (l1 & l2 & ->).
  rewrite bind_app, bind_cons in Hnd.
  apply NoDup_app in Hnd as (_ & _ & Hnd). by apply NoDup_app in Hnd as (? & _).
Qed.

Lemma slot_of_lookup (rid i : nat) (rids : list nat) :
  NoDup rids -> rids !! i = Some rid -> slot_of rid rids = Some i.
Proof.
  intros Hnd Hi. unfold slot_of.
  assert (list_find (eq rid) rids = Some (i, rid)) as ->; [|done].
  apply list_find_Some. split_and!; [done..|].
  intros j y Hj Hlt <-. pose proof (NoDup_lookup _ _ _ _ Hnd Hi Hj). lia.
Qed.

(** A rejection reaching a suspended call: the state cells keep their
    values, the error is on the console and the call is gone. *)
Lemma rejection_discards (w : World) (rids : list nat) (t : DetailsTask)
    (i rid : nat) (e : Error) :
  reachable w ->
  FetchCharacterDetails rids t ∈ tasks w ->
  rids !! i = Some rid ->
  pending t i ->
  exists w',
    step w (ResourceResponse rid (Rejected e)) = Some w'
    /\ ui w' = ui w
    /\ console w' = console w ++ [("Error fetching character details:", e)]
    /\ requests w' = requests w
    /\ tasks w ≡ₚ FetchCharacterDetails rids t :: tasks w'.
Proof.
  intros Hw Hin Hi Hp. apply reachable_wf in Hw as [Hnd _].
  destruct (take_task_found rid _ _ Hnd Hin) as [rest Ht].
  { by eapply list_elem_of_lookup_2. }
  pose proof (NoDup_bind_elem _ _ _ Hnd Hin) as Hnd'.
  eexists. simpl. rewrite Ht. simpl in Hnd'.
  rewrite (slot_of_lookup _ _ _ Hnd' Hi). simpl.
  rewrite (resume_pending _ _ e Hp). simpl. split; [done|].
  split_and!; try done. by apply take_task_Some in Ht as [? _].
Qed.

(** C3: enrichment is all or nothing.  When the GET of the homeworld, of the
    first species or of any film is rejected, the call never reaches
    [setSelectedChar], whatever the order of arrival, and ends in its
    [catch] block once the requests had their chance to settle; and in the
    component, a rejection reaching a suspended call leaves every state cell
    as it was, puts the error on the console and drops the call together
    with the details object it was filling. *)
Theorem enrichment_all_or_nothing (net : Network) (char : Character)
    (url : URL) (e : Error) :
  url ∈ sub_fetches char ->
  net url = Rejected e ->
  (forall arrivals d, (enrich net arrivals char).2 <> Committed d)
  /\ (forall order, order ≡ₚ seq 0 (length (films_gets char)) ->
       exists url' e',
         url' ∈ sub_fetches char /\ net url' = Rejected e'
         /\ (enrich net (schedule char order) char).2 = Caught e')
  /\ (forall w rids t i rid e',
       reachable w -> FetchCharacterDetails rids t ∈ tasks w ->
       rids !! i = Some rid -> pending t i ->
       exists w',
         step w (ResourceResponse rid (Rejected e')) = Some w'
         /\ ui w' = ui w
         /\ console w'
            = console w ++ [("Error fetching character details:", e')]
         /\ requests w' = requests w
         /\ tasks w ≡ₚ FetchCharacterDetails rids t :: tasks w').
Proof.
  intros Hin Hrej. destruct (enrich_rejects net char url e Hin Hrej) as [Hno Hcaught].
  split_and!; [exact Hno | exact Hcaught |].
  intros w rids t i rid e'. apply rejection_discards.
Qed.

Lemma enrichment_all_or_nothing_witness :
  (enrich swapi [0; 0; 2; 1; 0]%nat leia).2 = Caught "Request failed with status code 404"
  /\ forall arrivals d, (enrich swapi arrivals leia).2 <> Committed d.
Proof.
  split; [reflexivity|].
  apply (enrichment_all_or_nothing swapi leia
           "https://swapi.dev/api/films/9/"
           "Request failed with status code 404").
  - unfold sub_fetches. simpl. do 4 apply list_elem_of_further.
    apply list_elem_of_here.
  - reflexivity.
Defined.

(** C5: when every sub-fetch resolves, the GETs of all films leave together
    before the call suspends, and whatever the order in which they settle
    the call commits a record whose [film_titles] holds the title of each
    film resource at the position of its URL in [films]; without films it
    is the empty list. *)
Theorem film_titles_keep_input_order (net : Network) (char : Character)
    (order : list nat) :
  Forall (fetched net) (sub_fetches char) ->
  order ≡ₚ seq 0 (length (films_gets char)) ->
  (forall details url urls w rids,
     films char = Some (url :: urls) ->
     exists t,
       films_step char details = Await (url :: urls) t
       /\ requests (proceed rids (films_step char details) w)
          = requests w ++ url :: urls)
  /\ exists d titles,
      enrich net (schedule char order) char = (sub_fetches char, Committed d)
      /\ film_titles d = Some titles
      /\ Forall2 (fun url title =>
                    exists f, net url = Resolved f /\ data_title f = title)
                 (films_gets char) titles
      /\ (films char = None \/ films char = Some [] -> titles = []).
Proof.
  intros Hall Hperm. split.
  - intros details url urls w rids Hf. unfold films_step. rewrite Hf.
    by eexists.
  - exists (spec_details net char), (title_at net <$> films_gets char).
    split_and!; [by apply enrich_resolves | done | |].
    + apply Forall2_fmap_r, Forall_Forall2_diag.
      unfold sub_fetches in Hall. rewrite !Forall_app in Hall.
      destruct Hall as (_ & _ & Hfilms).
      eapply Forall_impl; [exact Hfilms|]. intros u [f Hf].
      exists f. unfold title_at. by rewrite Hf.
    + unfold films_gets. by intros [->| ->].
Qed.

Lemma film_titles_keep_input_order_witness :
  exists d,
    enrich swapi [0; 1; 0]%nat luke = (sub_fetches luke, Committed d)
    /\ species_name d = Some "Unknown"
    /\ film_titles d = Some ["A New Hope"; "The Empire Strikes Back"].
Proof.
  destruct (film_titles_keep_input_order swapi luke [1; 0]%nat)
    as (_ & d & titles & Hrun & Htitles & _).
  - unfold sub_fetches. simpl. repeat constructor; by eexists.
  - apply Permutation_swap.
  - exists d. split; [exact Hrun|].
    assert (Committed d = Committed (spec_details swapi luke)) as [= ->]; [|done].
    change (Committed d) with (sub_fetches luke, Committed d).2.
    by rewrite <- Hrun.
Defined.

(** C8: when every sub-fetch resolves, the call issues a GET for the first
    URL of a non-empty [species] list and for no other element of it, and
    commits a record whose [species_name] is the [name] of that resource; when
    the list is empty or missing it issues none and the name is "Unknown". *)
Theorem species_name_from_first_url (net : Network) (char : Character)
    (order : list nat) :
  Forall (fetched net) (sub_fetches char) ->
  order ≡ₚ seq 0 (length (films_gets char)) ->
  exists d,
    enrich net (schedule char order) char
    = (homeworld_gets char ++ species_gets char ++ films_gets char,
       Committed d)
    /\ (forall url urls, species char = Some (url :: urls) ->
         species_gets char = [url]
         /\ exists sp, net url = Resolved sp
                       /\ species_name d = Some (data_name sp))
    /\ (species char = None \/ species char = Some [] ->
         species_gets char = [] /\ species_name d = Some "Unknown").
Proof.
  intros Hall Hperm. exists (spec_details net char).
  split_and!; [by apply enrich_resolves | |].
  - intros url urls Hs.
    assert (species_gets char = [url]) as Hg
      by (unfold species_gets; by rewrite Hs).
    split; [done|]. unfold sub_fetches in Hall. rewrite !Forall_app, Hg in Hall.
    destruct Hall as (_ & Hsp & _). apply Forall_singleton in Hsp as [sp Hsp].
    exists sp. split; [done|]. simpl. rewrite Hg. simpl. unfold name_at.
    by rewrite Hsp.
  - unfold species_gets. simpl. unfold species_gets. by intros [->| ->].
Qed.

Lemma species_name_from_first_url_witness :
  exists d,
    enrich swapi [0; 0; 0]%nat han
    = (["https://swapi.dev/api/planets/1/"; "https://swapi.dev/api/species/1/";
        "https://swapi.dev/api/films/1/"], Committed d)
    /\ species_name d = Some "Human".
Proof.
  destruct (species_name_from_first_url swapi han [0]%nat)
    as (d & Hrun & Hfirst & _).
  - unfold sub_fetches. simpl. repeat constructor; by eexists.
  - reflexivity.
  - exists d. split; [exact Hrun|].
    destruct (Hfirst _ _ eq_refl) as (_ & sp & Hsp & ->).
    by injection Hsp as <-.
Defined.

(** C10: a step of the enrichment (the click on a card, or one of the
    call's requests settling) leaves [characters], [search], [currentPage],
    [totalPages] and [loading] as they were; [selectedChar] differs
    afterwards only when the step reached [setSelectedChar], and stays as it
    was when the step delivered a rejection. *)
Theorem enrichment_frame (w w' : World) (ev : Event) :
  (exists index, ev = ClickCard index)
  \/ (exists rid o, ev = ResourceResponse rid o) ->
  step w ev = Some w' ->
  characters (ui w') = characters (ui w)
  /\ search (ui w') = search (ui w)
  /\ currentPage (ui w') = currentPage (ui w)
  /\ totalPages (ui w') = totalPages (ui w)
  /\ loading (ui w') = loading (ui w)
  /\ (selectedChar (ui w') = selectedChar (ui w)
      \/ exists rids d rest,
           w' = proceed rids (Committed d) (set_tasks rest w))
  /\ (forall rid e, ev = ResourceResponse rid (Rejected e) ->
        selectedChar (ui w') = selectedChar (ui w)).
Proof.
  intros [[index ->]|(rid & o & ->)] Hs.
  - simpl in Hs. destruct (loading (ui w)) eqn:Hl; [done|].
    destruct (characters (ui w) !! index) as [char|]; [|done].
    injection Hs as <-.
    destruct (proceed_frame [] (fetchCharacterDetails char) w)
      as (-> & -> & -> & -> & -> & Hsel).
    split_and!; [done..| |by intros].
    rewrite Hsel.
    destruct (fetchCharacterDetails char) as [| |d|]; [by left..| |by left].
    right. exists [], d, (tasks w). by destruct w.
  - apply step_ResourceResponse in Hs
      as (rids & t & rest & i & p & Ht & Hi & Hp & ->).
    destruct (proceed_frame rids p (set_tasks rest w))
      as (-> & -> & -> & -> & -> & Hsel).
    split_and!; [done..| |].
    + rewrite Hsel. destruct p as [| |d|]; [by left..| |by left].
      right. by exists rids, d, rest.
    + intros rid' e [= -> ->]. apply resume_Rejected in Hp as ->. exact Hsel.
Qed.

Lemma enrichment_frame_witness :
  exists w w',
    run mounted [CharactersResponse 0 (Resolved (page_of 1)); ClickCard 0]
    = Some w
    /\ step w (ResourceResponse 1 (Rejected "Network Error")) = Some w'
    /\ characters (ui w') = [luke]
    /\ loading (ui w') = false
    /\ selectedChar (ui w') = None.
Proof.
  eexists _, _. split; [reflexivity|]. split; [reflexivity|].
  match goal with
  | |- context [characters (ui ?w1)] =>
      destruct (enrichment_frame
                  (proceed [] (fetchCharacterDetails luke)
                     (fetchCharacters_settled (Resolved (page_of 1))
                        (set_tasks [] mounted)))
                  w1 (ResourceResponse 1 (Rejected "Network Error")))
        as (Hc & _ & _ & _ & Hl & _ & Hsel)
  end.
  - right. by eexists _, _.
  - reflexivity.
  - rewrite Hc, Hl, (Hsel _ _ eq_refl). by repeat split.
Defined.

(** ** Pagination *)

Lemma handler_setCurrentPage (f : World -> Z) (w : World) :
  let w' := handler (fun w => setCurrentPage (f w) w) w in
  currentPage (ui w') = f w
  /\ totalPages (ui w') = totalPages (ui w)
  /\ (requests w' = requests w
      \/ requests w' = requests w ++ [charactersURL "" (f w)]).
Proof.
  unfold handler, useEffects. simpl.
  destruct (decide (f w = currentPage (ui w))); simpl;
    (case_decide; [|done]); split_and!; auto.
Qed.

(** C6, as the code has it: each pagination control moves [currentPage] to
    a page of [1 .. totalPages] when it was on one, leaves [totalPages]
    alone and asks for no other page than the one it moved to; the
    component starts on page 1 of 1; a list response settling leaves
    [currentPage] where it was. *)
Theorem pagination_clamps (w w' : World) (ev : Event) :
  is_navigation ev ->
  step w ev = Some w' ->
  1 <= currentPage (ui w) <= totalPages (ui w) ->
  1 <= currentPage (ui w') <= totalPages (ui w')
  /\ totalPages (ui w') = totalPages (ui w)
  /\ (requests w' = requests w
      \/ requests w' = requests w ++ [charactersURL "" (currentPage (ui w'))])
  /\ page_in_range (ui mounted)
  /\ (forall rid o w2, step w (CharactersResponse rid o) = Some w2 ->
        currentPage (ui w2) = currentPage (ui w)).
Proof.
  intros Hev Hs Hrange.
  assert (page_in_range (ui mounted)
          /\ (forall rid o w2, step w (CharactersResponse rid o) = Some w2 ->
                currentPage (ui w2) = currentPage (ui w))) as Hm.
  { split; [unfold page_in_range; simpl; lia|].
    intros rid o w2 Hs2.
    apply step_CharactersResponse in Hs2 as (r & rest & _ & ->).
    by destruct o. }
  destruct Hm as [Hm1 Hm2].
  destruct Hev as [->|[->|[i ->]]]; simpl in Hs.
  - destruct (pagination_shown (ui w)); [|done]. injection Hs as <-.
    destruct (handler_setCurrentPage
                (fun w => Z.max (currentPage (ui w) - 1) 1) w)
      as (Hc & Ht & Hr).
    rewrite Hc, Ht. split_and!; [lia|lia|done|done|exact Hm1|exact Hm2].
  - destruct (pagination_shown (ui w)); [|done]. injection Hs as <-.
    destruct (handler_setCurrentPage
                (fun w => Z.min (currentPage (ui w) + 1) (totalPages (ui w))) w)
      as (Hc & Ht & Hr).
    rewrite Hc, Ht. split_and!; [lia|lia|done|done|exact Hm1|exact Hm2].
  - destruct (pagination_shown (ui w)); [|done].
    destruct (Z.of_nat i <? totalPages (ui w)) eqn:Hi; [|done].
    apply Z.ltb_lt in Hi. injection Hs as <-.
    destruct (handler_setCurrentPage (fun _ => Z.of_nat i + 1) w)
      as (Hc & Ht & Hr).
    change (handler (setCurrentPage (Z.of_nat i + 1)) w)
      with (handler (fun w => setCurrentPage (Z.of_nat i + 1) w) w).
    rewrite Hc, Ht. split_and!; [lia|lia|done|done|exact Hm1|exact Hm2].
Qed.

Lemma pagination_clamps_witness :
  run mounted [CharactersResponse 0 (Resolved (page_of 25))] = Some first_page
  /\ exists w',
      step first_page NextPage = Some w'
      /\ 1 <= currentPage (ui w') <= totalPages (ui w').
Proof.
  split; [reflexivity|].
  destruct (step first_page NextPage) as [w'|] eqn:Hs;
    [|vm_compute in Hs; discriminate Hs].
  exists w'. split; [reflexivity|].
  apply (proj1 (pagination_clamps first_page w' NextPage
                  (or_intror (or_introl eq_refl)) Hs
                  ltac:(vm_compute; split; discriminate))).
Defined.

(** C6 as the specification states it does not hold: after [late_search]
    the component shows page 3 of 1. *)
Lemma page_range_not_invariant :
  ~ (forall w, reachable w -> page_in_range (ui w)).
Proof.
  intros Hinv.
  destruct (run mounted late_search) as [w|] eqn:Hrun;
    [|vm_compute in Hrun; discriminate Hrun].
  destruct (Hinv w) as [[_ Hle] _]; [exists late_search; exact Hrun|].
  vm_compute in Hrun. injection Hrun as <-. vm_compute in Hle. by apply Hle.
Qed.

(** ** The two triggers of the list fetch *)

Lemma typed_cons (prev value : string) (ms : nat) (keys : list (string * nat)) :
  typed prev ((value, ms) :: keys) = typed value keys.
Proof.
  unfold typed. destruct keys as [|key keys]; [done|].
  change (last ((value, ms) :: key :: keys)) with (last (key :: keys)).
  destruct (last (key :: keys)) eqn:Hl; [done|]. by apply last_None in Hl.
Qed.

Lemma run_app (w : World) (evs1 evs2 : list Event) :
  run w (evs1 ++ evs2) = run w evs1 ≫= fun w1 => run w1 evs2.
Proof.
  revert w. induction evs1 as [|ev evs1 IH]; intros w; [done|].
  simpl. destruct (step w ev); [apply IH | done].
Qed.

Lemma run_cons (w : World) (ev : Event) (evs : list Event) :
  run w (ev :: evs) = step w ev ≫= fun w1 => run w1 evs.
Proof. reflexivity. Qed.

Lemma step_Change (w : World) (value : string) :
  value <> search (ui w) ->
  step w (Change value)
  = Some (set_debounced (Some (value, wait)) (setSearch value w)).
Proof.
  intros Hne. unfold step, handler, useEffects.
  destruct (decide (currentPage (ui (setSearch value w)) = currentPage (ui w)))
    as [_|Hn]; [|by destruct Hn].
  destruct (decide (search (ui (setSearch value w)) = search (ui w)))
    as [He|_]; [by destruct Hne | reflexivity].
Qed.

Lemma step_Elapse_early (w : World) (query : string) (remaining ms : nat) :
  debounced w = Some (query, remaining) -> (ms < remaining)%nat ->
  step w (Elapse ms)
  = Some (set_debounced (Some (query, (remaining - ms)%nat)) w).
Proof.
  intros Hd Hlt. unfold step. rewrite Hd.
  by rewrite (proj2 (Nat.leb_gt remaining ms) Hlt).
Qed.

Lemma step_Elapse_fire (w : World) (query : string) (remaining ms : nat) :
  debounced w = Some (query, remaining) -> (remaining <= ms)%nat ->
  step w (Elapse ms) = Some (search_callback query (set_debounced None w)).
Proof.
  intros Hd Hle. unfold step. rewrite Hd.
  by rewrite (proj2 (Nat.leb_le remaining ms) Hle).
Qed.

Lemma run_keystrokes (keys : list (string * nat)) (w : World) :
  burst (search (ui w)) keys ->
  exists w',
    run w (keystrokes keys) = Some w'
    /\ search (ui w') = typed (search (ui w)) keys
    /\ currentPage (ui w') = currentPage (ui w)
    /\ requests w' = requests w.
Proof.
  revert w. induction keys as [|[value ms] keys IH]; intros w Hb.
  - by exists w.
  - destruct Hb as (Hne & Hms & Hb).
    change (keystrokes ((value, ms) :: keys))
      with (Change value :: Elapse ms :: keystrokes keys).
    rewrite run_cons, (step_Change _ _ Hne). cbn [mbind option_bind].
    rewrite run_cons, (step_Elapse_early _ value wait ms) by done.
    cbn [mbind option_bind].
    destruct (IH (set_debounced (Some (value, (wait - ms)%nat))
                    (set_debounced (Some (value, wait)) (setSearch value w))))
      as (w' & -> & Hs & Hc & Hr); [exact Hb|].
    exists w'. split; [done|]. rewrite Hs, Hc, Hr. split_and!; [|done..].
    by rewrite typed_cons.
Qed.

Lemma search_callback_requests (query : string) (w : World) :
  currentPage (ui (search_callback query w)) = 1
  /\ requests (search_callback query w)
     = requests w ++ charactersURL query 1
         :: (if decide (currentPage (ui w) = 1) then []
             else [charactersURL "" 1]).
Proof.
  unfold search_callback, handler, useEffects.
  change (currentPage (ui (fetchCharacters query 1 (setCurrentPage 1 w))))
    with 1.
  destruct (decide (1 = currentPage (ui w))) as [Heq|Hne];
    destruct (decide (currentPage (ui w) = 1)) as [Heq'|Hne'];
    try congruence.
  - change (search (ui (fetchCharacters query 1 (setCurrentPage 1 w))))
      with (search (ui w)).
    destruct (decide (search (ui w) = search (ui w))) as [_|Hn];
      [|by destruct Hn].
    split; reflexivity.
  - change (search (ui (fetchCharacters "" 1 ?x))) with (search (ui w)).
    destruct (decide (search (ui w) = search (ui w))) as [_|Hn];
      [|by destruct Hn].
    split; [reflexivity|].
    change (requests (fetchCharacters "" 1
                        (fetchCharacters query 1 (setCurrentPage 1 w))))
      with ((requests w ++ [charactersURL query 1]) ++ [charactersURL "" 1]).
    by rewrite <- (assoc_L (++)).
Qed.

(** A burst of keystrokes, each less than 500 ms after the one before, and
    then a quiet period: nothing is requested while the user types; at the
    end of the quiet period the search for the last term and page 1 is
    requested, and, unless the component already was on page 1, the
    unfiltered page 1 after it. *)
Lemma debounce_burst (keys : list (string * nat)) (value : string)
    (quiet : nat) (w : World) :
  burst (search (ui w)) keys ->
  value <> typed (search (ui w)) keys ->
  (wait <= quiet)%nat ->
  exists w1 w',
    run w (keystrokes keys ++ [Change value]) = Some w1
    /\ requests w1 = requests w
    /\ step w1 (Elapse quiet) = Some w'
    /\ currentPage (ui w') = 1
    /\ requests w'
       = requests w ++ charactersURL value 1
           :: (if decide (currentPage (ui w) = 1) then []
               else [charactersURL "" 1]).
Proof.
  intros Hb Hne Hq.
  destruct (run_keystrokes keys w Hb) as (w0 & Hrun & Hs & Hc & Hr).
  rewrite <- Hs in Hne.
  exists (set_debounced (Some (value, wait)) (setSearch value w0)).
  eexists. split_and!.
  - rewrite run_app, Hrun. cbn [mbind option_bind].
    by rewrite run_cons, (step_Change _ _ Hne).
  - exact Hr.
  - by apply (step_Elapse_fire _ value wait).
  - apply search_callback_requests.
  - rewrite (proj2 (search_callback_requests _ _)).
    change (requests (set_debounced None
              (set_debounced (Some (value, wait)) (setSearch value w0))))
      with (requests w0).
    change (currentPage (ui (set_debounced None
              (set_debounced (Some (value, wait)) (setSearch value w0)))))
      with (currentPage (ui w0)).
    by rewrite Hr, Hc.
Qed.

(** C1 at [paging_a_search]: with "a" in the search box, the click on the
    next-page control asks for page 2 of the unfiltered list. *)
Theorem page_change_drops_query :
  exists w,
    run mounted paging_a_search = Some w
    /\ search (ui w) = "a"
    /\ currentPage (ui w) = 2
    /\ last (requests w) = Some (endpoint +:+ "page=2")
    /\ last (requests w) <> Some (charactersURL "a" 2).
Proof.
  eexists. split; [vm_compute; reflexivity|].
  repeat split; vm_compute; congruence.
Qed.

(** C4 at [typing_on_page_3]: no request leaves while the user types, and
    once the keyboard has been quiet for 500 ms two requests leave, the
    search for the last term and the unfiltered first page. *)
Theorem debounce_on_page_three :
  exists w w',
    run mounted typing_on_page_3 = Some w
    /\ currentPage (ui w) = 3
    /\ length (requests w) = 3%nat
    /\ step w (Elapse 500) = Some w'
    /\ currentPage (ui w') = 1
    /\ requests w'
       = requests w ++ [charactersURL "Luke" 1; charactersURL "" 1].
Proof.
  eexists _, _. split; [vm_compute; reflexivity|].
  repeat split; vm_compute; reflexivity.
Qed.

(** ** The scenarios of the specification *)

(** On page 1 the same burst of typing ends in a single request. *)
Lemma debounce_on_page_one :
  exists w1 w',
    run first_page
        (keystrokes [("L", 100%nat); ("Lu", 100%nat); ("Luk", 100%nat)]
           ++ [Change "Luke"]) = Some w1
    /\ requests w1 = requests first_page
    /\ step w1 (Elapse 500) = Some w'
    /\ requests w' = requests first_page ++ [charactersURL "Luke" 1].
Proof.
  destruct (debounce_burst
              [("L", 100%nat); ("Lu", 100%nat); ("Luk", 100%nat)]
              "Luke" 500%nat first_page)
    as (w1 & w' & Hrun & Hreq & Hstep & _ & Hreq').
  - vm_compute. repeat split; try discriminate; lia.
  - vm_compute. discriminate.
  - vm_compute. lia.
  - exists w1, w'. by split_and!.
Defined.

(** Query "Luke", page 1: the service answers with one match, and the grid
    has one page. *)
Example luke_has_one_page :
  exists w,
    run mounted [Change "Luke"; Elapse 500;
                 CharactersResponse 0 (Resolved (page_of 25));
                 CharactersResponse 1 (Resolved (page_of 1))] = Some w
    /\ nth_error (requests w) 1 = Some (endpoint +:+ "search=Luke&page=1")
    /\ characters (ui w) = [luke]
    /\ totalPages (ui w) = 1
    /\ loading (ui w) = false.
Proof.
  eexists. split; [vm_compute; reflexivity|].
  repeat split; vm_compute; reflexivity.
Qed.

(** Clicking that card: the film that was asked for first arrives last, and
    the modal still lists the films in the order of the card. *)
Example luke_modal :
  exists w,
    run mounted [CharactersResponse 0 (Resolved (page_of 1)); ClickCard 0;
                 ResourceResponse 1 (Resolved (planet "Tatooine"));
                 ResourceResponse 3
                   (Resolved (film "The Empire Strikes Back"));
                 ResourceResponse 2 (Resolved (film "A New Hope"))] = Some w
    /\ selectedChar (ui w)
       = Some {| spread := luke;
                 homeworld_name := Some "Tatooine";
                 species_name := Some "Unknown";
                 film_titles :=
                   Some ["A New Hope"; "The Empire Strikes Back"] |}
    /\ tasks w = [].
Proof.
  eexists. split; [vm_compute; reflexivity|].
  split; vm_compute; reflexivity.
Qed.

(** ** The Presentation Layer *)

Lemma Array_from_Some {A : Type} (len : Z) (f : nat -> A) (l : list A) :
  Array_from len f = Some l
  <-> len < 2 ^ 32 /\ l = f <$> seq 0 (Z.to_nat len).
Proof.
  unfold Array_from. destruct (Z.leb_spec (2 ^ 32) len); split.
  - done.
  - intros [? _]. lia.
  - by intros [= <-].
  - by intros [_ ->].
Qed.

Lemma Array_from_None {A : Type} (len : Z) (f : nat -> A) :
  Array_from len f = None <-> 2 ^ 32 <= len.
Proof.
  unfold Array_from. destruct (Z.leb_spec (2 ^ 32) len); split; try done; lia.
Qed.

(** The numbered buttons, when [Array.from] returns. *)
Lemma page_buttons_eq (s : UIState) :
  totalPages s < 2 ^ 32 ->
  numbered_buttons s = Some (page_buttons s)
  /\ page_buttons s = page_button s <$> seq 0 (Z.to_nat (totalPages s)).
Proof.
  intros Ht. unfold page_buttons, numbered_buttons.
  by rewrite (proj2 (Array_from_Some (totalPages s) (page_button s) _)
                (conj Ht eq_refl)).
Qed.

Lemma render_Some (s : UIState) (v : View) :
  render s = Some v ->
  input_value v = search s
  /\ clear_button v = truthy (search s)
  /\ loader v = loading s
  /\ no_items v = negb (loading s) && (length (characters s) =? 0)%nat
  /\ cards v = grid s
  /\ pagination v
     = (if pagination_shown s then Some (page_buttons s) else None).
Proof.
  unfold render, page_buttons.
  destruct (pagination_shown s); simpl;
    [destruct (numbered_buttons s) as [bs|]; simpl; [|done]|];
    (destruct (selectedChar s) as [d|]; simpl;
     [destruct (render_modal d); simpl; [|done]|]; by intros [= <-]).
Qed.

(** A render that returns made fewer than 2^32 numbered buttons. *)
Lemma render_Some_bound (s : UIState) (v : View) :
  render s = Some v -> pagination_shown s = true -> totalPages s < 2 ^ 32.
Proof.
  unfold render. intros Hr Hs. rewrite Hs in Hr. simpl in Hr.
  destruct (numbered_buttons s) as [bs|] eqn:Hb; [|done].
  by apply Array_from_Some in Hb as [? _].
Qed.

Lemma length_grid (s : UIState) :
  loading s = false -> length (grid s) = length (characters s).
Proof. unfold grid. intros ->. apply length_imap. Qed.

(** Of the loader, the "No items found" message and the grid with its
    pagination bar, the component renders exactly one. *)
Theorem render_one_of_three (s : UIState) (v : View) :
  render s = Some v ->
  (loader v = true /\ no_items v = false
   /\ cards v = [] /\ pagination v = None)
  \/ (loader v = false /\ no_items v = true
      /\ cards v = [] /\ pagination v = None)
  \/ (loader v = false /\ no_items v = false
      /\ length (cards v) = length (characters s) /\ cards v <> []
      /\ pagination v = Some (page_buttons s)).
Proof.
  intros Hr. apply render_Some in Hr as (_ & _ & -> & -> & -> & ->).
  unfold pagination_shown, grid.
  destruct (loading s) eqn:Hl; simpl; [by left|]. right.
  destruct (characters s) as [|char chars] eqn:Hc; simpl; [by left|].
  right. split_and!; try done. by rewrite length_imap.
Qed.

Lemma render_one_of_three_witness :
  exists v,
    render (ui first_page) = Some v
    /\ loader v = false /\ no_items v = false /\ length (cards v) = 1%nat.
Proof.
  destruct (render (ui first_page)) as [v|] eqn:Hr;
    [|vm_compute in Hr; discriminate Hr].
  exists v. split; [reflexivity|].
  destruct (render_one_of_three (ui first_page) v Hr)
    as [(Hl & _)|[(_ & _ & Hc & _)|(Hl & Hn & Hlen & _)]].
  - apply render_Some in Hr as (_ & _ & Hl' & _).
    rewrite Hl' in Hl. vm_compute in Hl. discriminate Hl.
  - apply render_Some in Hr as (_ & _ & _ & _ & Hc' & _).
    rewrite Hc' in Hc. vm_compute in Hc. discriminate Hc.
  - by rewrite Hlen.
Defined.

(** The numbers on the cards: the card at [index] of the rendered page
    carries [index + 1 + (currentPage - 1) * 10]; on pages of at most ten
    cards no number appears on two pages, and the first card of a page
    continues the count of the page before. *)
Theorem card_numbers (s : UIState) (v : View) (index : nat) (c : Card) :
  render s = Some v ->
  cards v !! index = Some c ->
  card_number c = Z.of_nat index + 1 + (currentPage s - 1) * 10
  /\ characters s !! index = Some (card_onClick c)
  /\ (forall page page' i i',
        (i < 10)%nat -> (i' < 10)%nat ->
        cardNumber page i = cardNumber page' i' -> page = page' /\ i = i')
  /\ (forall page, cardNumber (page + 1) 0 = cardNumber page 9 + 1)
  /\ (currentPage s = 1 -> card_number c = Z.of_nat index + 1).
Proof.
  intros Hr Hc. apply render_Some in Hr as (_ & _ & _ & _ & Hg & _).
  rewrite Hg in Hc. unfold grid in Hc. destruct (loading s); [done|].
  rewrite list_lookup_imap in Hc.
  destruct (characters s !! index) as [char|] eqn:Hchar; [|done].
  injection Hc as <-. simpl. unfold cardNumber, itemsPerPage.
  split_and!; [done|done| |intros; lia|intros ->; lia].
  intros page page' i i' Hi Hi' Heq. lia.
Qed.

Lemma card_numbers_witness :
  exists v c,
    render (ui first_page) = Some v
    /\ cards v !! 0%nat = Some c
    /\ card_number c = 1.
Proof.
  destruct (render (ui first_page)) as [v|] eqn:Hr;
    [|vm_compute in Hr; discriminate Hr].
  destruct (cards v !! 0%nat) as [c|] eqn:Hc.
  - exists v, c. split; [reflexivity|]. split; [exact Hc|].
    destruct (card_numbers (ui first_page) v 0 c Hr Hc) as (_ & _ & _ & _ & H1).
    apply H1. reflexivity.
  - vm_compute in Hr. injection Hr as <-. vm_compute in Hc. discriminate Hc.
Defined.

Lemma active_buttons (s : UIState) (n : nat) :
  length (filter (fun b => button_active b = true)
            (page_button s <$> seq 0 n))
  = if decide (1 <= currentPage s <= Z.of_nat n) then 1%nat else 0%nat.
Proof.
  induction n as [|n IH]; [by case_decide; [lia|]|].
  rewrite seq_S, fmap_app, filter_app, length_app, IH. simpl.
  rewrite filter_cons, filter_nil. simpl.
  destruct (Z.eqb_spec (currentPage s) (Z.of_nat n + 1)) as [Heq|Hne];
    repeat case_decide; simpl; try done; lia.
Qed.

(** The pagination bar has one button per page, labelled 1 to [totalPages]
    (none when [totalPages] is below 1); the button of the current page is
    the only highlighted one, and none is highlighted when [currentPage] is
    outside [1 .. totalPages]. *)
Theorem page_buttons_spec (s : UIState) (v : View) (bs : list PageButton) :
  render s = Some v ->
  pagination v = Some bs ->
  length bs = Z.to_nat (totalPages s)
  /\ (forall i b, bs !! i = Some b ->
        button_label b = Z.of_nat i + 1
        /\ (button_active b = true <-> currentPage s = Z.of_nat i + 1))
  /\ length (filter (fun b => button_active b = true) bs)
     = (if decide (1 <= currentPage s <= totalPages s) then 1%nat else 0%nat).
Proof.
  intros Hr Hp. pose proof (render_Some_bound s v Hr) as Hlt.
  apply render_Some in Hr as (_ & _ & _ & _ & _ & Hpag).
  rewrite Hpag in Hp. destruct (pagination_shown s); [|done].
  injection Hp as <-.
  rewrite (proj2 (page_buttons_eq s (Hlt eq_refl))). split_and!.
  - by rewrite length_fmap, length_seq.
  - intros i b Hb. rewrite list_lookup_fmap in Hb.
    destruct (seq 0 (Z.to_nat (totalPages s)) !! i) as [j|] eqn:Hj; [|done].
    apply lookup_seq in Hj as [-> _]. injection Hb as <-. simpl.
    split; [done|]. apply Z.eqb_eq.
  - rewrite active_buttons. repeat case_decide; try done; lia.
Qed.

Lemma page_buttons_spec_witness :
  exists v bs,
    render (ui first_page) = Some v
    /\ pagination v = Some bs
    /\ length bs = 3%nat
    /\ length (filter (fun b => button_active b = true) bs) = 1%nat.
Proof.
  destruct (render (ui first_page)) as [v|] eqn:Hr;
    [|vm_compute in Hr; discriminate Hr].
  destruct (pagination v) as [bs|] eqn:Hp.
  - exists v, bs. split; [reflexivity|]. split; [exact Hp|].
    destruct (page_buttons_spec (ui first_page) v bs Hr Hp) as (Hlen & _ & Hact).
    split; [exact Hlen | exact Hact].
  - vm_compute in Hr. injection Hr as <-. vm_compute in Hp. discriminate Hp.
Defined.

Lemma append_empty (a b : string) : a +:+ b = "" -> a = "" /\ b = "".
Proof. destruct a; [done | discriminate]. Qed.

Lemma join_empty (titles : list string) :
  join ", " titles = "" <-> titles = [] \/ titles = [""].
Proof.
  split.
  - destruct titles as [|a [|b rest]]; [by left| |].
    + simpl. intros ->. by right.
    + intros Hj. change (a +:+ ", " +:+ join ", " (b :: rest) = "") in Hj.
      apply append_empty in Hj as [_ Hj]. discriminate Hj.
  - by intros [->| ->].
Qed.

(** The "Movies" line of the modal: "None" for a record without film titles
    (or with a single empty one), otherwise the titles in list order with
    ", " between them. *)
Theorem movies_text_spec (titles : list string) :
  (titles = [] \/ titles = [""] -> movies_text titles = "None")
  /\ (titles <> [] -> titles <> [""] ->
      movies_text titles = join ", " titles /\ movies_text titles <> "")
  /\ (forall a rest,
        join ", " (a :: rest)
        = a +:+ (if decide (rest = []) then "" else ", " +:+ join ", " rest)).
Proof.
  split_and!.
  - by intros [->| ->].
  - intros Hne Hne'. unfold movies_text.
    destruct (truthy (join ", " titles)) eqn:Ht.
    + split; [done|]. by apply truthy_true.
    + apply truthy_false, join_empty in Ht. by destruct Ht.
  - intros a [|b rest]; [|done]. simpl.
    induction a as [|x a IH]; [done|].
    change (String x a = String x (a +:+ "")). by rewrite <- IH.
Qed.

(** ** What keeps the modal renderable *)

Lemma films_step_sound (c : Character) (d : Details) :
  is_Some (species_name d) -> progress_sound (films_step c d).
Proof.
  intros Hs. unfold films_step.
  destruct (films c) as [[|url urls]|]; simpl; try done; by split.
Qed.

Lemma species_step_sound (c : Character) (d : Details) :
  progress_sound (species_step c d).
Proof.
  unfold species_step.
  destruct (species c) as [[|url urls]|]; try done;
    by apply films_step_sound.
Qed.

Lemma fetchCharacterDetails_sound (c : Character) :
  progress_sound (fetchCharacterDetails c).
Proof.
  unfold fetchCharacterDetails.
  destruct (homeworld c) as [url|]; [destruct (truthy url)|]; try done;
    apply species_step_sound.
Qed.

Lemma resume_sound (rids : list nat) (t : DetailsTask) (i : nat)
    (o : Outcome Resource) (p : Progress) :
  task_sound (FetchCharacterDetails rids t) ->
  resume t i o = Some p -> progress_sound p.
Proof.
  intros Ht. destruct t as [c d|c d|d slots]; simpl.
  - destruct i; [|done]. intros [= <-].
    destruct o; [apply species_step_sound | done].
  - destruct i; [|done]. intros [= <-].
    destruct o; [by apply films_step_sound | done].
  - destruct (slots !! i) as [[f|]|]; [done| |done]. intros [= <-].
    destruct o as [f|e]; [|done].
    destruct (mapM id (<[i:=Some f]> slots)); simpl; [by split | done].
Qed.

Lemma renderable_fetchCharacters (query : string) (page : Z) (w : World) :
  renderable w -> renderable (fetchCharacters query page w).
Proof.
  intros [Hsel Htasks]. split; [exact Hsel|].
  change (tasks (fetchCharacters query page w))
    with (tasks w ++ [FetchCharacters (length (requests w))]).
  apply Forall_app. split; [done|]. by repeat constructor.
Qed.

Lemma renderable_useEffects (prev : UIState) (w : World) :
  renderable w -> renderable (useEffects prev w).
Proof.
  intros Hw. unfold useEffects.
  destruct (decide (currentPage (ui w) = currentPage prev));
    case_decide; try done; try by apply renderable_fetchCharacters.
  all: by apply (renderable_fetchCharacters "" (currentPage (ui w))) in Hw.
Qed.

Lemma renderable_proceed (rids : list nat) (p : Progress) (w : World) :
  renderable w -> progress_sound p -> renderable (proceed rids p w).
Proof.
  intros [Hsel Htasks] Hp. destruct p as [gets t|t|d|e]; simpl.
  - split; [exact Hsel|]. simpl. apply Forall_app. by repeat constructor.
  - split; [exact Hsel|]. simpl. apply Forall_app. by repeat constructor.
  - split; [|exact Htasks]. simpl. by intros d' [= <-].
  - by split.
Qed.

Lemma renderable_take (rid : nat) (t : Task) (rest : list Task) (w : World) :
  renderable w -> take_task rid (tasks w) = Some (t, rest) ->
  renderable (set_tasks rest w) /\ task_sound t.
Proof.
  intros [Hsel Htasks] Ht. apply take_task_Some in Ht as [Hp _].
  rewrite Hp in Htasks. apply Forall_cons in Htasks as [? ?].
  split; [split; [exact Hsel | done] | done].
Qed.

Lemma renderable_step (w w' : World) (ev : Event) :
  renderable w -> step w ev = Some w' -> renderable w'.
Proof.
  intros Hw. destruct ev; simpl.
  - intros [= <-]. by apply renderable_useEffects.
  - destruct (truthy _); [|done]. intros [= <-]. by apply renderable_useEffects.
  - destruct (debounced w) as [[query remaining]|]; [|by intros [= <-]].
    destruct (_ <=? _)%nat; intros [= <-]; [|done].
    by apply renderable_useEffects, renderable_fetchCharacters.
  - destruct (pagination_shown _); [|done]. intros [= <-].
    by apply renderable_useEffects.
  - destruct (_ && _); [|done]. intros [= <-]. by apply renderable_useEffects.
  - destruct (pagination_shown _); [|done]. intros [= <-].
    by apply renderable_useEffects.
  - destruct (loading _); [done|].
    destruct (_ !! _) as [char|]; [|done]. intros [= <-].
    apply renderable_proceed; [done | apply fetchCharacterDetails_sound].
  - destruct (selectedChar _); [|done]. intros [= <-].
    destruct Hw as [_ Htasks]. by split.
  - destruct (take_task rid (tasks w)) as [[[r|rids t] rest]|] eqn:Ht; [|done..].
    intros [= <-]. destruct (renderable_take _ _ _ _ Hw Ht) as [Hrest _].
    by destruct o.
  - destruct (take_task rid (tasks w)) as [[[r|rids t] rest]|] eqn:Ht; [done| |done].
    destruct (slot_of rid rids) as [i|]; [simpl|done].
    destruct (resume t i o) as [p|] eqn:Hp; [simpl|done]. intros [= <-].
    destruct (renderable_take _ _ _ _ Hw Ht) as [Hrest Hsound].
    apply renderable_proceed; [done | by eapply resume_sound].
Qed.

Lemma renderable_reachable (w : World) : reachable w -> renderable w.
Proof.
  intros [evs Hrun]. revert Hrun.
  assert (renderable mounted) as Hm.
  { split; [done|]. by repeat constructor. }
  revert Hm. generalize mounted. induction evs as [|ev evs IH]; intros w0 Hw0.
  - by intros [= <-].
  - simpl. destruct (step w0 ev) as [w1|] eqn:Hs; [|done].
    apply IH. by eapply renderable_step.
Qed.

(** In a reachable state the render throws exactly when the pagination bar
    is shown and [totalPages] is 2^32 or more: the RangeError of
    [Array.from] at line 145.  The modal never throws: a record that reached
    [setSelectedChar] has its [species_name] and [film_titles], and a view
    that is rendered shows them. *)
Theorem render_throws_only_RangeError (w : World) :
  reachable w ->
  (render (ui w) = None
   <-> pagination_shown (ui w) = true /\ 2 ^ 32 <= totalPages (ui w))
  /\ forall v d,
       render (ui w) = Some v -> selectedChar (ui w) = Some d ->
       exists sp titles,
         species_name d = Some sp
         /\ film_titles d = Some titles
         /\ modal_species <$> modal v = Some sp
         /\ modal_movies <$> modal v = Some (movies_text titles).
Proof.
  intros Hw. apply renderable_reachable in Hw as [Hsel _].
  assert (exists shown,
            match selectedChar (ui w) with
            | Some d => Some <$> render_modal d
            | None => Some None
            end = Some shown
            /\ forall d, selectedChar (ui w) = Some d ->
                 exists sp titles,
                   species_name d = Some sp
                   /\ film_titles d = Some titles
                   /\ modal_species <$> shown = Some sp
                   /\ modal_movies <$> shown = Some (movies_text titles))
    as (shown & Hshown & Hd).
  { destruct (selectedChar (ui w)) as [d|] eqn:Hd.
    - destruct (Hsel d eq_refl) as [[sp Hsp] [titles Ht]].
      unfold render_modal. rewrite Ht. simpl. eexists. split; [done|].
      intros d' [= <-]. exists sp, titles. simpl. by rewrite Hsp.
    - eexists. split; [done|]. by intros d' [=]. }
  unfold render. rewrite Hshown.
  destruct (pagination_shown (ui w)); simpl.
  - destruct (numbered_buttons (ui w)) as [bs|] eqn:Hb; simpl.
    + apply Array_from_Some in Hb as [Hlt _]. split.
      * split; [done | intros [_ ?]; lia].
      * intros v d [= <-]. exact (Hd d).
    + apply Array_from_None in Hb. by split.
  - split.
    + split; [done | by intros [? _]].
    + intros v d [= <-]. exact (Hd d).
Qed.

Lemma render_throws_only_RangeError_witness :
  render (ui too_many_pages) = None.
Proof.
  apply (proj2 (proj1 (render_throws_only_RangeError too_many_pages
                         (ex_intro _
                            [CharactersResponse 0
                               (Resolved (page_of 42949672960))]
                            eq_refl)))).
  vm_compute. split; [reflexivity | discriminate].
Defined.

(** ** The spinner and the requests in flight *)

Lemma spinner_backed_mono (w w' : World) :
  loading (ui w') = loading (ui w) ->
  (forall rid, FetchCharacters rid ∈ tasks w -> FetchCharacters rid ∈ tasks w') ->
  spinner_backed w -> spinner_backed w'.
Proof.
  intros Hl Ht Hw Hl'. rewrite Hl in Hl'. destruct (Hw Hl') as [rid Hrid].
  exists rid. by apply Ht.
Qed.

Lemma spinner_backed_fetchCharacters (query : string) (page : Z) (w : World) :
  spinner_backed (fetchCharacters query page w).
Proof.
  intros _. exists (length (requests w)).
  change (tasks (fetchCharacters query page w))
    with (tasks w ++ [FetchCharacters (length (requests w))]).
  apply elem_of_app. right. apply list_elem_of_here.
Qed.

Lemma spinner_backed_useEffects (prev : UIState) (w : World) :
  spinner_backed w -> spinner_backed (useEffects prev w).
Proof.
  intros Hw. unfold useEffects.
  destruct (decide (currentPage (ui w) = currentPage prev));
    case_decide; try done.
  all: by apply (spinner_backed_fetchCharacters "" (currentPage (ui w)) w).
Qed.

Lemma spinner_backed_proceed (rids : list nat) (t : DetailsTask)
    (p : Progress) (rest : list Task) (w : World) :
  tasks w ≡ₚ FetchCharacterDetails rids t :: rest ->
  spinner_backed w -> spinner_backed (proceed rids p (set_tasks rest w)).
Proof.
  intros Hp. apply spinner_backed_mono; [by destruct p|].
  intros rid Hin. rewrite Hp in Hin.
  apply elem_of_cons in Hin as [Heq|Hin]; [done|].
  destruct p; simpl; try done; apply elem_of_app; by left.
Qed.

Lemma spinner_backed_step (w w' : World) (ev : Event) :
  spinner_backed w -> step w ev = Some w' -> spinner_backed w'.
Proof.
  intros Hw. destruct ev; simpl.
  - intros [= <-]. by apply spinner_backed_useEffects.
  - destruct (truthy _); [|done]. intros [= <-].
    by apply spinner_backed_useEffects.
  - destruct (debounced w) as [[query remaining]|]; [|by intros [= <-]].
    destruct (_ <=? _)%nat; intros [= <-]; [|done].
    apply spinner_backed_useEffects, spinner_backed_fetchCharacters.
  - destruct (pagination_shown _); [|done]. intros [= <-].
    by apply spinner_backed_useEffects.
  - destruct (_ && _); [|done]. intros [= <-].
    by apply spinner_backed_useEffects.
  - destruct (pagination_shown _); [|done]. intros [= <-].
    by apply spinner_backed_useEffects.
  - destruct (loading _) eqn:Hl; [done|].
    destruct (_ !! _) as [char|]; [|done]. intros [= <-].
    intros Hl'. destruct (fetchCharacterDetails char); simpl in Hl'; congruence.
  - destruct (selectedChar _); [|done]. by intros [= <-].
  - destruct (take_task rid (tasks w)) as [[[r|rids t] rest]|] eqn:Ht; [|done..].
    intros [= <-]. intros Hl. by destruct o.
  - destruct (take_task rid (tasks w)) as [[[r|rids t] rest]|] eqn:Ht; [done| |done].
    destruct (slot_of rid rids) as [i|]; [simpl|done].
    destruct (resume t i o) as [p|] eqn:Hp; [simpl|done]. intros [= <-].
    apply take_task_Some in Ht as [Hperm _].
    by eapply spinner_backed_proceed.
Qed.

(** Whenever the loader is shown a list request is in flight: [loading] is
    set only together with a GET, and every settlement clears it. *)
Theorem loader_has_request (w : World) :
  reachable w ->
  loading (ui w) = true ->
  exists rid url,
    FetchCharacters rid ∈ tasks w /\ requests w !! rid = Some url.
Proof.
  intros Hw Hl.
  assert (spinner_backed w) as Hs.
  { destruct Hw as [evs Hrun]. revert Hrun.
    assert (spinner_backed mounted) as Hm
      by apply (spinner_backed_fetchCharacters "" 1 unmounted).
    revert Hm. generalize mounted.
    induction evs as [|ev evs IH]; intros w0 Hw0; [by intros [= <-]|].
    simpl. destruct (step w0 ev) as [w1|] eqn:Hs; [|done].
    apply IH. by eapply spinner_backed_step. }
  destruct (Hs Hl) as [rid Hrid]. exists rid.
  apply reachable_wf in Hw as [_ Hlt]. rewrite Forall_forall in Hlt.
  destruct (lookup_lt_is_Some_2 (requests w) rid) as [url Hurl].
  { apply Hlt. apply list_elem_of_bind. exists (FetchCharacters rid).
    split; [apply list_elem_of_here | done]. }
  by exists url.
Qed.

Lemma loader_has_request_witness :
  exists rid url,
    FetchCharacters rid ∈ tasks mounted /\ requests mounted !! rid = Some url.
Proof.
  apply (loader_has_request mounted); [by exists [] | reflexivity].
Defined.

(** Two list requests in flight: the first response already hides the
    loader although the other request is still out, and the component ends
    up showing the response that settles last, whichever request it
    answers. *)
Theorem last_response_wins (w : World) (rid1 rid2 : nat)
    (data1 data2 : PageResult) :
  reachable w ->
  FetchCharacters rid1 ∈ tasks w ->
  FetchCharacters rid2 ∈ tasks w ->
  rid1 <> rid2 ->
  exists w1 w2,
    step w (CharactersResponse rid1 (Resolved data1)) = Some w1
    /\ loading (ui w1) = false
    /\ FetchCharacters rid2 ∈ tasks w1
    /\ step w1 (CharactersResponse rid2 (Resolved data2)) = Some w2
    /\ characters (ui w2) = results data2
    /\ totalPages (ui w2) = pageCount (total data2)
    /\ currentPage (ui w2) = currentPage (ui w)
    /\ search (ui w2) = search (ui w).
Proof.
  intros Hw Hin1 Hin2 Hne.
  pose proof (reachable_wf _ Hw) as [Hnd _].
  destruct (take_task_found rid1 _ _ Hnd Hin1) as [rest Ht];
    [apply list_elem_of_here|].
  assert (step w (CharactersResponse rid1 (Resolved data1))
          = Some (fetchCharacters_settled (Resolved data1) (set_tasks rest w)))
    as Hs1 by (simpl; by rewrite Ht).
  pose proof (reachable_step _ _ _ Hw Hs1) as Hw1.
  pose proof (reachable_wf _ Hw1) as [Hnd1 _].
  assert (FetchCharacters rid2 ∈ rest) as Hin2'.
  { apply take_task_Some in Ht as [Hp _]. rewrite Hp in Hin2.
    apply elem_of_cons in Hin2 as [[= Heq]|Hin2]; [congruence | done]. }
  destruct (take_task_found rid2
              (tasks (fetchCharacters_settled (Resolved data1)
                        (set_tasks rest w)))
              _ Hnd1 Hin2') as [rest2 Ht2]; [apply list_elem_of_here|].
  eexists _, _. split; [exact Hs1|]. split; [done|]. split; [exact Hin2'|].
  split; [simpl; simpl in Ht2; by rewrite Ht2|]. done.
Qed.

Lemma last_response_wins_witness :
  exists w2,
    run mounted_twice [CharactersResponse 1 (Resolved (page_of 1));
                       CharactersResponse 0 (Resolved (page_of 25))] = Some w2
    /\ totalPages (ui w2) = 3.
Proof.
  destruct (last_response_wins mounted_twice 1 0 (page_of 1) (page_of 25))
    as (w1 & w2 & Hs1 & _ & _ & Hs2 & _ & Ht & _).
  - exists [Elapse 500]. reflexivity.
  - apply list_elem_of_further, list_elem_of_here.
  - apply list_elem_of_here.
  - discriminate.
  - exists w2. split; [|exact Ht].
    change (run mounted_twice
              [CharactersResponse 1 (Resolved (page_of 1));
               CharactersResponse 0 (Resolved (page_of 25))])
      with (match step mounted_twice
                    (CharactersResponse 1 (Resolved (page_of 1))) with
            | Some w' =>
                match step w' (CharactersResponse 0 (Resolved (page_of 25)))
                with Some w'' => Some w'' | None => None end
            | None => None
            end).
    rewrite Hs1, Hs2. reflexivity.
Defined.

(** ** Clicks that change nothing, keystrokes that fetch nothing *)

Lemma setCurrentPage_same (w : World) :
  setCurrentPage (currentPage (ui w)) w = w.
Proof. by destruct w as [[] ? ? ? ?]. Qed.

Lemma handler_setCurrentPage_cases (page : Z) (w : World) :
  let w' := handler (fun w => setCurrentPage page w) w in
  (page = currentPage (ui w) /\ w' = w)
  \/ (page <> currentPage (ui w)
      /\ w' = fetchCharacters "" page (setCurrentPage page w)).
Proof.
  unfold handler, useEffects.
  change (currentPage (ui (setCurrentPage page w))) with page.
  destruct (decide (page = currentPage (ui w))) as [->|Hne].
  - left. split; [done|].
    destruct (decide (search (ui (setCurrentPage (currentPage (ui w)) w))
                      = search (ui w))) as [_|Hn]; [|by destruct Hn].
    apply setCurrentPage_same.
  - right. split; [done|].
    destruct (decide (search (ui (fetchCharacters "" page
                                    (setCurrentPage page w)))
                      = search (ui w))) as [_|Hn]; [done | by destruct Hn].
Qed.

(** A click on a pagination control is possible only while the bar is
    rendered.  When the page it asks for is the current one (previous on
    page 1, next on the last page, the highlighted button) nothing at all
    changes and nothing is requested; otherwise the page changes, the
    loader comes up and exactly one GET for that page of the unfiltered
    list leaves, while the cards, the search text and the page count stay. *)
Theorem navigation_effect (w w' : World) (ev : Event) :
  is_navigation ev ->
  step w ev = Some w' ->
  pagination_shown (ui w) = true
  /\ ((currentPage (ui w') = currentPage (ui w) /\ w' = w)
      \/ (currentPage (ui w') <> currentPage (ui w)
          /\ loading (ui w') = true
          /\ requests w'
             = requests w ++ [charactersURL "" (currentPage (ui w'))]
          /\ tasks w' = tasks w ++ [FetchCharacters (length (requests w))]
          /\ characters (ui w') = characters (ui w)
          /\ search (ui w') = search (ui w)
          /\ totalPages (ui w') = totalPages (ui w)
          /\ selectedChar (ui w') = selectedChar (ui w)
          /\ debounced w' = debounced w))
  /\ (ev = PrevPage -> currentPage (ui w) = 1 -> w' = w)
  /\ (ev = NextPage -> currentPage (ui w) = totalPages (ui w) -> w' = w)
  /\ (forall i, ev = GotoPage i ->
        currentPage (ui w) = Z.of_nat i + 1 -> w' = w).
Proof.
  intros Hev Hs.
  assert (exists page,
            pagination_shown (ui w) = true
            /\ w' = handler (fun w => setCurrentPage page w) w
            /\ (ev = PrevPage -> page = Z.max (currentPage (ui w) - 1) 1)
            /\ (ev = NextPage ->
                page = Z.min (currentPage (ui w) + 1) (totalPages (ui w)))
            /\ (forall i, ev = GotoPage i -> page = Z.of_nat i + 1))
    as (page & Hshown & -> & Hprev & Hnext & Hgoto).
  { destruct Hev as [->|[->|[i ->]]]; simpl in Hs.
    - destruct (pagination_shown (ui w)); [|done]. injection Hs as <-.
      exists (Z.max (currentPage (ui w) - 1) 1). by split_and!.
    - destruct (pagination_shown (ui w)); [|done]. injection Hs as <-.
      exists (Z.min (currentPage (ui w) + 1) (totalPages (ui w))).
      by split_and!.
    - destruct (pagination_shown (ui w)); [|done].
      destruct (Z.of_nat i <? totalPages (ui w)); [|done]. injection Hs as <-.
      exists (Z.of_nat i + 1). split_and!; try done. by intros i' [= ->]. }
  clear Hs.
  destruct (handler_setCurrentPage_cases page w) as [[Hp ->]|[Hp ->]].
  - split_and!; [done|by left|done..].
  - split_and!; [done| | | |].
    + right. by split_and!.
    + intros He Hc. specialize (Hprev He). lia.
    + intros He Hc. specialize (Hnext He). lia.
    + intros i He Hc. specialize (Hgoto i He). lia.
Qed.

Lemma navigation_effect_witness :
  step first_page PrevPage = Some first_page.
Proof.
  destruct (step first_page PrevPage) as [w'|] eqn:Hs;
    [|vm_compute in Hs; discriminate Hs].
  f_equal.
  apply (proj1 (proj2 (proj2 (navigation_effect first_page w' PrevPage
                                (or_introl eq_refl) Hs)))); reflexivity.
Defined.

(** Typing into the search box, or clearing it, asks the service for
    nothing: the requests, the suspended calls, the console and every state
    cell but [search] stay as they are.  A new text restarts the 500 ms
    timer with that text; the same text leaves a running timer alone.  The
    clear button is there only for a non-empty text and acts as typing the
    empty text. *)
Theorem search_input_effect (w w' : World) (ev : Event) (value : string) :
  ev = Change value \/ (ev = ClearSearch /\ value = "") ->
  step w ev = Some w' ->
  ui w' = ui (setSearch value w)
  /\ requests w' = requests w
  /\ tasks w' = tasks w
  /\ console w' = console w
  /\ debounced w'
     = (if decide (value = search (ui w)) then debounced w
        else Some (value, wait))
  /\ (ev = ClearSearch -> search (ui w) <> "")
  /\ step w (Change value) = Some w'.
Proof.
  intros Hev Hs.
  assert (w' = handler (setSearch value) w
          /\ (ev = ClearSearch -> search (ui w) <> "")) as [-> Hclear].
  { destruct Hev as [->|[-> ->]]; simpl in Hs.
    - by injection Hs as <-.
    - destruct (truthy (search (ui w))) eqn:Ht; [|done]. injection Hs as <-.
      split; [done|]. intros _. by apply truthy_true. }
  clear Hs. split_and!; try done; unfold handler, useEffects;
    (destruct (decide (currentPage (ui (setSearch value w))
                       = currentPage (ui w))) as [_|Hn]; [|by destruct Hn]);
    change (search (ui (setSearch value w))) with value;
    by destruct (decide (value = search (ui w))).
Qed.

Lemma search_input_effect_witness :
  exists w',
    step first_page (Change "Luke") = Some w'
    /\ requests w' = requests first_page
    /\ debounced w' = Some ("Luke", 500%nat).
Proof.
  destruct (step first_page (Change "Luke")) as [w'|] eqn:Hs;
    [|vm_compute in Hs; discriminate Hs].
  exists w'. split; [reflexivity|].
  destruct (search_input_effect first_page w' (Change "Luke") "Luke"
              (or_introl eq_refl) Hs) as (_ & Hr & _ & _ & Hd & _).
  split; [exact Hr | exact Hd].
Defined.

(** ** The debounce timer *)

Lemma debounced_search_callback (query : string) (w : World) :
  debounced (search_callback query w) = debounced w.
Proof.
  unfold search_callback, handler, useEffects.
  destruct (decide (currentPage (ui (fetchCharacters query 1
                                       (setCurrentPage 1 w)))
                    = currentPage (ui w))) as [?|?].
  - destruct (decide (search (ui (fetchCharacters query 1
                                    (setCurrentPage 1 w)))
                      = search (ui w))) as [_|Hn]; [done | by destruct Hn].
  - destruct (decide (search (ui (fetchCharacters ""
                                    (currentPage (ui (fetchCharacters query 1
                                       (setCurrentPage 1 w))))
                                    (fetchCharacters query 1
                                       (setCurrentPage 1 w))))
                      = search (ui w))) as [_|Hn]; [done | by destruct Hn].
Qed.

(** Time only counts down the debounce timer: waiting [a] and then [b]
    milliseconds is the same as waiting [a + b]; the callback runs when the
    timer runs out, and it does not start the timer again, so one keystroke
    leads to at most one call. *)
Theorem elapse_additive (w : World) (a b : nat) :
  run w [Elapse a; Elapse b] = run w [Elapse (a + b)%nat]
  /\ (forall query remaining,
        debounced w = Some (query, remaining) -> (remaining <= a)%nat ->
        exists w',
          step w (Elapse a) = Some w'
          /\ debounced w' = None
          /\ step w' (Elapse b) = Some w')
  /\ (debounced w = None -> step w (Elapse a) = Some w).
Proof.
  split_and!.
  - simpl. destruct (debounced w) as [[query remaining]|] eqn:Hd.
    + destruct (Nat.leb_spec remaining a) as [Hle|Hgt].
      * rewrite debounced_search_callback. simpl.
        by rewrite (proj2 (Nat.leb_le remaining (a + b)) ltac:(lia)).
      * simpl. destruct (Nat.leb_spec (remaining - a) b) as [Hle|Hgt'].
        -- by rewrite (proj2 (Nat.leb_le remaining (a + b)) ltac:(lia)).
        -- rewrite (proj2 (Nat.leb_gt remaining (a + b)) ltac:(lia)).
           unfold set_debounced. simpl. do 4 f_equal. lia.
    + by rewrite Hd.
  - intros query remaining Hd Hle. eexists. simpl. rewrite Hd.
    rewrite (proj2 (Nat.leb_le remaining a) Hle). split; [done|].
    by rewrite !debounced_search_callback.
  - intros Hd. simpl. by rewrite Hd.
Qed.

(** ** More on the Detail Enrichment Controller *)

(** When every sub-fetch resolves, the committed record carries the fields
    of the card unchanged; a card with a non-empty [homeworld] has that URL
    fetched first and [homeworld_name] set to the [name] of the resource; a
    card without one (or with an empty URL) makes no such request and
    leaves [homeworld_name] unset. *)
Theorem homeworld_name_from_resource (net : Network) (char : Character)
    (order : list nat) :
  Forall (fetched net) (sub_fetches char) ->
  order ≡ₚ seq 0 (length (films_gets char)) ->
  exists d,
    enrich net (schedule char order) char = (sub_fetches char, Committed d)
    /\ spread d = char
    /\ (forall url, homeworld char = Some url -> url <> "" ->
          head (sub_fetches char) = Some url
          /\ exists hw, net url = Resolved hw
                        /\ homeworld_name d = Some (data_name hw))
    /\ (homeworld char = None \/ homeworld char = Some "" ->
          homeworld_gets char = [] /\ homeworld_name d = None).
Proof.
  intros Hall Hperm. exists (spec_details net char).
  split_and!; [by apply enrich_resolves | done | |].
  - intros url Hh Hne. apply truthy_true in Hne.
    assert (homeworld_gets char = [url]) as Hg
      by (unfold homeworld_gets; by rewrite Hh, Hne).
    unfold sub_fetches in *. rewrite Hg in *. split; [done|].
    apply Forall_app in Hall as [Hhw _].
    apply Forall_singleton in Hhw as [hw Hhw]. exists hw. split; [done|].
    simpl. rewrite Hg. simpl. unfold name_at. by rewrite Hhw.
  - intros Hh.
    assert (homeworld_gets char = []) as Hg
      by (unfold homeworld_gets; by destruct Hh as [->| ->]).
    split; [done|]. simpl. by rewrite Hg.
Qed.

Lemma homeworld_name_from_resource_witness :
  exists d,
    enrich swapi [0; 0; 1]%nat luke = (sub_fetches luke, Committed d)
    /\ homeworld_name d = Some "Tatooine".
Proof.
  destruct (homeworld_name_from_resource swapi luke [0; 1]%nat)
    as (d & Hrun & _ & Hhw & _).
  - unfold sub_fetches. simpl. repeat constructor; by eexists.
  - reflexivity.
  - exists d. split; [exact Hrun|].
    destruct (Hhw _ eq_refl ltac:(discriminate)) as (_ & hw & Hn & ->).
    by injection Hn as <-.
Defined.

Lemma drive_single_rejected (net : Network) (log : list URL) (url : URL)
    (t : DetailsTask) (arrivals : list nat) (e : Error) :
  (forall slots d, t <> AwaitFilms d slots) ->
  net url = Rejected e ->
  (drive net log [url] t arrivals).1 = log.
Proof.
  intros Ht Hn. induction arrivals as [|i rest IH]; [done|].
  simpl. destruct i as [|i]; simpl; [|exact IH].
  rewrite Hn. destruct t as [c d|c d|d slots]; simpl; [done..|].
  by destruct (Ht slots d).
Qed.

Lemma species_gets_singleton (char : Character) (url : URL) :
  species_gets char = [url] -> exists urls, species char = Some (url :: urls).
Proof.
  unfold species_gets. destruct (species char) as [[|u urls]|]; try done.
  intros [= ->]. by exists urls.
Qed.

Lemma drive_homeworld_prefix (net : Network) (char : Character) (u url : URL)
    (urls : list URL) (d : Details) (arrivals : list nat) (e : Error) :
  species char = Some (url :: urls) ->
  net url = Rejected e ->
  (drive net [u] [u] (AwaitHomeworld char d) arrivals).1 `prefix_of` [u; url].
Proof.
  intros Hs Hn. induction arrivals as [|i rest IH]; [by exists [url]|].
  simpl. destruct i as [|i]; simpl; [|exact IH].
  destruct (net u) as [hw|e']; [|by exists [url]].
  unfold species_step. rewrite Hs.
  by rewrite (drive_single_rejected net _ url _ _ e).
Qed.

(** Whatever the network does and in whatever order, one call asks for
    nothing but the homeworld, then the first species, then the films, in
    that order.  When the homeworld request is rejected nothing else is
    ever requested, and when the species request is rejected no film is. *)
Theorem requests_in_order (net : Network) (arrivals : list nat)
    (char : Character) :
  (enrich net arrivals char).1 `prefix_of` sub_fetches char
  /\ (forall url e, homeworld_gets char = [url] -> net url = Rejected e ->
        (enrich net arrivals char).1 = [url])
  /\ (forall url e, species_gets char = [url] -> net url = Rejected e ->
        (enrich net arrivals char).1 `prefix_of` homeworld_gets char ++ [url]).
Proof.
  split_and!.
  - destruct (enrich_ok net char arrivals) as [Hok Hne].
    destruct (enrich net arrivals char) as [log [gets t|t|d|e]]; simpl in *.
    + by destruct (Hne gets t).
    + destruct Hok as [gets Hs]. by eapply suspended_prefix.
    + by destruct Hok as (_ & -> & _).
    + by destruct Hok as [_ ?].
  - intros url e Hg Hn. unfold enrich, fetchCharacterDetails.
    unfold homeworld_gets in Hg.
    destruct (homeworld char) as [u|]; [|done].
    destruct (truthy u); [|done]. injection Hg as ->.
    unfold continue. by apply (drive_single_rejected net _ url _ _ e).
  - intros url e Hg Hn.
    destruct (species_gets_singleton _ _ Hg) as [urls Hs].
    assert (forall log d,
              (continue net log (species_step char d) arrivals).1
              = log ++ [url]) as Hsp.
    { intros log d. unfold species_step. rewrite Hs. unfold continue.
      by apply (drive_single_rejected net _ url _ _ e). }
    unfold enrich, fetchCharacterDetails, homeworld_gets.
    destruct (homeworld char) as [u|]; [destruct (truthy u)|];
      [|by rewrite Hsp..].
    by apply (drive_homeworld_prefix net char u url urls _ arrivals e).
Qed.

(** The click on a card is possible only while the grid is rendered and
    the card exists.  It sends the GETs of the card's first cross reference
    (homeworld, else first species, else films) and nothing else; a card
    without any cross reference opens the modal at once, with species
    "Unknown" and no films, and no request; any other card leaves the modal
    as it was and suspends one call. *)
Theorem click_card_effect (w w' : World) (index : nat) :
  step w (ClickCard index) = Some w' ->
  exists char,
    loading (ui w) = false
    /\ characters (ui w) !! index = Some char
    /\ requests w' = requests w ++ first_gets char
    /\ (sub_fetches char = [] ->
        tasks w' = tasks w
        /\ selectedChar (ui w')
           = Some {| spread := char; homeworld_name := None;
                     species_name := Some "Unknown";
                     film_titles := Some [] |})
    /\ (sub_fetches char <> [] ->
        selectedChar (ui w') = selectedChar (ui w)
        /\ exists t, tasks w'
             = tasks w ++ [FetchCharacterDetails
                             (seq (length (requests w))
                                  (length (first_gets char))) t]).
Proof.
  simpl. destruct (loading (ui w)) eqn:Hl; [done|].
  destruct (characters (ui w) !! index) as [char|] eqn:Hc; [|done].
  intros [= <-]. exists char. split; [done|]. split; [done|].
  unfold first_gets, sub_fetches, fetchCharacterDetails, species_step,
    films_step, homeworld_gets, species_gets, films_gets.
  destruct (homeworld char) as [h|]; [destruct (truthy h)|];
    destruct (species char) as [[|s ss]|];
    destruct (films char) as [[|f fs]|]; simpl;
    rewrite ?app_nil_r; (split; [done|]);
    split; try done; intros _; (split; [done|]); by eexists.
Qed.

Lemma click_card_effect_witness :
  exists w w',
    run mounted [CharactersResponse 0 (Resolved (page_of 1))] = Some w
    /\ step w (ClickCard 0) = Some w'
    /\ requests w' = requests w ++ ["https://swapi.dev/api/planets/1/"].
Proof.
  eexists. 
  destruct (step (fetchCharacters_settled (Resolved (page_of 1))
                    (set_tasks [] mounted)) (ClickCard 0))
    as [w'|] eqn:Hs; [|vm_compute in Hs; discriminate Hs].
  exists w'. split; [reflexivity|]. split; [exact Hs|].
  destruct (click_card_effect _ w' 0 Hs) as (char & _ & Hc & Hr & _).
  vm_compute in Hc. injection Hc as <-. exact Hr.
Defined.
